(** * HintStore (chia/full_node/hint_store.py): a shallow embedding

    The store keeps one table, [hints(coin_id blob, hint blob,
    UNIQUE (coin_id, hint))], and every method of [HintStore] is a short
    piece of Python around one or several SQL statements.  The embedding
    has three layers:

    - byte strings with the byte-lexicographic order SQLite uses for blobs;
    - the storage backend: the table, the statements the store sends, what
      each statement answers, and the backend's bound on the number of
      bound parameters of one statement;
    - the methods of [HintStore], written in a small state-and-exception
      monad over the connection, one definition per method. *)

From Stdlib Require Import ZArith Lia.
From Stdlib.Strings Require Import Byte.
From stdpp Require Import base decidable option list gmap sorting.

Local Open Scope Z_scope.

(** ** Byte strings *)

(** Python [bytes] and SQLite blobs are lists of bytes. *)
Abbreviation bytes := (list byte).

#[global] Instance byte_eq_dec : EqDecision byte := Byte.byte_eq_dec.

#[global] Instance byte_countable : Countable byte :=
  inj_countable Byte.to_N Byte.of_N Byte.of_to_N.

(** Blob comparison is [memcmp] on the common prefix, the shorter string
    first on a tie: the byte-lexicographic order. *)
Fixpoint bytes_leb (a b : bytes) : bool :=
  match a, b with
  | [], _ => true
  | _ :: _, [] => false
  | x :: a', y :: b' =>
      if (Byte.to_N x <? Byte.to_N y)%N then true
      else if (Byte.to_N x =? Byte.to_N y)%N then bytes_leb a' b'
      else false
  end.

Definition bytes_le (a b : bytes) : Prop := bytes_leb a b = true.
Definition bytes_lt (a b : bytes) : Prop := bytes_leb b a = false.

#[global] Instance bytes_le_dec a b : Decision (bytes_le a b).
Proof. unfold bytes_le. apply _. Defined.

#[global] Instance bytes_lt_dec a b : Decision (bytes_lt a b).
Proof. unfold bytes_lt. apply _. Defined.

(** ** Exceptions *)

Inductive exn :=
| OperationalError  (* sqlite3: too many SQL variables *)
| ValueError        (* bytes32 of a wrong length; to_batches with batch_size <= 0 *)
| OverflowError     (* sqlite3: Python int too large to convert to SQLite INTEGER *)
| IntegrityError.   (* sqlite3: datatype mismatch *)

Inductive result (A : Type) :=
| Ok (a : A)
| Raise (e : exn).
Arguments Ok {A} a.
Arguments Raise {A} e.

(** [bytes32(b)]: the sized-bytes constructor accepts exactly 32 bytes. *)
Definition bytes32 (b : bytes) : result bytes :=
  if decide (length b = 32%nat) then Ok b else Raise ValueError.

(** ** The table and the statements *)

Record Row := { coin_id : bytes; hint : bytes }.

#[global] Instance Row_eq_dec : EqDecision Row.
Proof. solve_decision. Defined.

(** The WHERE clauses that occur in the store. *)
Inductive Predicate :=
| HintEq (h : bytes)             (* hint=? *)
| HintIn (hs : list bytes)       (* hint in (?,...,?) *)
| CoinIdIn (cs : list bytes)     (* coin_id in (?,...,?) *)
| CoinIdGt (c : bytes)           (* coin_id > ? *)
| And (p q : Predicate).

Fixpoint satisfies (p : Predicate) (r : Row) : Prop :=
  match p with
  | HintEq h => hint r = h
  | HintIn hs => hint r ∈ hs
  | CoinIdIn cs => coin_id r ∈ cs
  | CoinIdGt c => bytes_lt c (coin_id r)
  | And p q => satisfies p r ∧ satisfies q r
  end.

#[global] Instance satisfies_dec p r : Decision (satisfies p r).
Proof. induction p; simpl; apply _. Defined.

Fixpoint predicate_parameters (p : Predicate) : nat :=
  match p with
  | HintEq _ => 1
  | HintIn hs => length hs
  | CoinIdIn cs => length cs
  | CoinIdGt _ => 1
  | And p q => predicate_parameters p + predicate_parameters q
  end.

Inductive Columns := COIN_ID | HINT | COIN_ID_HINT.

(** [LIMIT ?] binds its count as one more parameter; [LIMIT {page_size}]
    is spliced into the statement text and binds nothing. *)
Inductive Limit :=
| NO_LIMIT
| LIMIT_PARAMETER (n : Z)
| LIMIT_LITERAL (n : Z).

Inductive Statement :=
| SELECT (cols : Columns) (where_ : Predicate) (order_by_coin_id : bool) (lim : Limit)
| SELECT_COUNT (where_ : option Predicate)
| INSERT_OR_IGNORE (values : list Row).

Definition limit_parameters (lim : Limit) : nat :=
  match lim with
  | LIMIT_PARAMETER _ => 1
  | _ => 0
  end.

(** Bound parameters of one execution of the statement ([executemany] runs
    the INSERT once per tuple, two values each time). *)
Definition bound_parameters (st : Statement) : nat :=
  match st with
  | SELECT _ w _ lim => predicate_parameters w + limit_parameters lim
  | SELECT_COUNT None => 0
  | SELECT_COUNT (Some w) => predicate_parameters w
  | INSERT_OR_IGNORE [] => 0
  | INSERT_OR_IGNORE (_ :: _) => 2
  end.

(** SQLite integers are signed and 64 bits wide. *)
Definition int64 (n : Z) : Prop := - 2 ^ 63 ≤ n < 2 ^ 63.

#[global] Instance int64_dec n : Decision (int64 n).
Proof. unfold int64. apply _. Defined.

(** The operand of a LIMIT has to be such an integer.  A Python [int]
    bound to [LIMIT ?] that is not raises [OverflowError] when it is bound;
    one spliced into the text is read as a floating-point literal, and the
    statement fails with a datatype mismatch when it runs. *)
Definition limit_error (lim : Limit) : option exn :=
  match lim with
  | NO_LIMIT => None
  | LIMIT_PARAMETER n => if decide (int64 n) then None else Some OverflowError
  | LIMIT_LITERAL n => if decide (int64 n) then None else Some IntegrityError
  end.

(** A negative LIMIT means no upper bound on the rows returned.  The
    operand is in the 64-bit range when this is evaluated, see
    [limit_error] and [execute_fetchall]. *)
Definition limit_count {A} (n : Z) (l : list A) : list A :=
  if decide (n < 0) then l else take (Z.to_nat n) l.

Definition apply_limit {A} (lim : Limit) (l : list A) : list A :=
  match lim with
  | NO_LIMIT => l
  | LIMIT_PARAMETER n => limit_count n l
  | LIMIT_LITERAL n => limit_count n l
  end.

(** ORDER BY coin_id. *)
Definition row_le (r1 r2 : Row) : Prop := bytes_le (coin_id r1) (coin_id r2).

#[global] Instance row_le_dec r1 r2 : Decision (row_le r1 r2).
Proof. unfold row_le. apply _. Defined.

(** The rows a SELECT answers: WHERE, then ORDER BY, then LIMIT.  The
    table is the list of its rows in rowid order, the order of insertion.
    A statement with neither ORDER BY nor INDEXED BY leaves the scan to the
    backend's planner; it is answered here in rowid order, and the
    properties below of such statements are stated up to that order: by
    membership, multiplicity and length. *)
Definition select_rows (w : Predicate) (ordered : bool) (lim : Limit)
    (table : list Row) : list Row :=
  let matching := filter (satisfies w) table in
  apply_limit lim (if ordered then merge_sort row_le matching else matching).

(** The two indexes of the table: [hint_index] on [hints(hint)], created
    at line 31, and [sqlite_autoindex_hints_1], which the backend creates
    for [UNIQUE (coin_id, hint)] at line 29. *)
Inductive Index := hint_index | sqlite_autoindex_hints_1.

Definition hint_le (r1 r2 : Row) : Prop := bytes_le (hint r1) (hint r2).

#[global] Instance hint_le_dec r1 r2 : Decision (hint_le r1 r2).
Proof. unfold hint_le. apply _. Defined.

(** The rows in the order of a scan of an index: [hint_index] goes by
    ascending hint and, under one hint, by rowid;
    [sqlite_autoindex_hints_1] goes by ascending coin id and, under one
    coin id, by ascending hint. *)
Definition index_scan (ix : Index) (table : list Row) : list Row :=
  match ix with
  | hint_index =>
      concat ((λ h, filter (λ r, hint r = h) table)
                <$> merge_sort bytes_le (remove_dups (hint <$> table)))
  | sqlite_autoindex_hints_1 =>
      concat ((λ c, merge_sort hint_le (filter (λ r, coin_id r = c) table))
                <$> merge_sort bytes_le (remove_dups (coin_id <$> table)))
  end.

(** The rows a SELECT ... INDEXED BY answers: the statement is forced to
    scan the index, so the rows come in the order of the index: WHERE over
    the scan, then LIMIT. *)
Definition select_rows_indexed_by (ix : Index) (w : Predicate) (lim : Limit)
    (table : list Row) : list Row :=
  apply_limit lim (filter (satisfies w) (index_scan ix table)).

Definition count_rows (w : option Predicate) (table : list Row) : Z :=
  match w with
  | None => Z.of_nat (length table)
  | Some p => Z.of_nat (length (filter (satisfies p) table))
  end.

(** INSERT OR IGNORE under UNIQUE (coin_id, hint): a pair already stored
    is skipped. *)
Definition insert_or_ignore (table : list Row) (r : Row) : list Row :=
  if decide (r ∈ table) then table else table ++ [r].

(** ** The connection: a state-and-exception monad *)

(** [DBWrapper2] as the store sees it: the backend's limit on bound
    parameters per statement, the rows of [hints], and the statements
    sent so far. *)
Record DBWrapper2 := {
  host_parameter_limit : nat;
  hints_table : list Row;
  journal : list Statement
}.

Definition DB (A : Type) : Type := DBWrapper2 → result A * DBWrapper2.

Definition ret {A} (a : A) : DB A := λ db, (Ok a, db).

Definition raise {A} (e : exn) : DB A := λ db, (Raise e, db).

Definition bind {A B} (m : DB A) (k : A → DB B) : DB B :=
  λ db, match m db with
        | (Ok a, db') => k a db'
        | (Raise e, db') => (Raise e, db')
        end.

Definition lift {A} (r : result A) : DB A := λ db, (r, db).

Declare Scope db_scope.
Delimit Scope db_scope with db.
Notation "'let*' x := m 'in' k" := (bind m (λ x, k))
  (at level 10, x name, m at level 100, k at level 200) : db_scope.
Notation "m >> k" := (bind m (λ _, k))
  (at level 100, k at level 200, right associativity) : db_scope.
Local Open Scope db_scope.

(** The accumulating [for] loop: [for x in l: acc = body x acc]. *)
Fixpoint for_each {A S} (l : list A) (body : A → S → DB S) (acc : S) : DB S :=
  match l with
  | [] => ret acc
  | x :: l' => let* acc' := body x acc in for_each l' body acc'
  end.

(** A list comprehension whose element expression may raise. *)
Fixpoint comprehension {A B} (f : A → result B) (l : list A) : result (list B) :=
  match l with
  | [] => Ok []
  | x :: l' =>
      match f x with
      | Raise e => Raise e
      | Ok y =>
          match comprehension f l' with
          | Raise e => Raise e
          | Ok ys => Ok (y :: ys)
          end
      end
  end.

(** Sending a statement: it is recorded, and rejected when it binds more
    parameters than the backend allows. *)
Definition with_journal (db : DBWrapper2) (sts : list Statement) : DBWrapper2 :=
  {| host_parameter_limit := host_parameter_limit db;
     hints_table := hints_table db;
     journal := journal db ++ sts |}.

Definition send (st : Statement) : DB unit :=
  λ db,
    if decide (bound_parameters st ≤ host_parameter_limit db)%nat
    then (Ok tt, with_journal db [st])
    else (Raise OperationalError, with_journal db [st]).

Definition read_table : DB (list Row) := λ db, (Ok (hints_table db), db).

Definition with_table (db : DBWrapper2) (table : list Row) : DBWrapper2 :=
  {| host_parameter_limit := host_parameter_limit db;
     hints_table := table;
     journal := journal db |}.

Definition write_table (table : list Row) : DB unit :=
  λ db, (Ok tt, with_table db table).

(** [conn.execute(...)] of a SELECT followed by [fetchall()]: the
    statement is prepared, which rejects it when it has too many
    parameters; then its LIMIT operand is bound or evaluated, which fails
    outside the 64-bit range; then the rows are answered. *)
Definition execute_fetchall (st : Statement) (lim : Limit)
    (answer : list Row → list Row) : DB (list Row) :=
  send st >>
  match limit_error lim with
  | Some e => raise e
  | None => let* table := read_table in ret (answer table)
  end.

(** A SELECT without INDEXED BY. *)
Definition fetchall (cols : Columns) (w : Predicate) (ordered : bool)
    (lim : Limit) : DB (list Row) :=
  execute_fetchall (SELECT cols w ordered lim) lim (select_rows w ordered lim).

(** A SELECT ... INDEXED BY [ix], which has no ORDER BY in the store.  The
    statement is recorded by what it selects, binds and limits; the index
    it names decides the order of the answer. *)
Definition fetchall_indexed_by (ix : Index) (cols : Columns) (w : Predicate)
    (lim : Limit) : DB (list Row) :=
  execute_fetchall (SELECT cols w false lim) lim (select_rows_indexed_by ix w lim).

(** [conn.execute(SELECT COUNT( * ) ...)] followed by [fetchone()]. *)
Definition fetchone_count (w : option Predicate) : DB Z :=
  send (SELECT_COUNT w) >>
  let* table := read_table in
  ret (count_rows w table).

(** [conn.executemany("INSERT OR IGNORE INTO hints VALUES(?, ?)", values)]. *)
Definition executemany_insert_or_ignore (values : list Row) : DB unit :=
  send (INSERT_OR_IGNORE values) >>
  let* table := read_table in
  write_table (fold_left insert_or_ignore values table).

(** ** Batches *)

(** Modelled from the spec: a chunk of the plan of section 4.2, of which
    the store reads the [entries]. *)
Record Batch (A : Type) := { entries : list A }.
Arguments entries {A} _.

(** Modelled from the spec: the consecutive runs of [size] keys that
    [to_batches] below yields; [fuel] is the number of keys. *)
Fixpoint chunks {A} (fuel : nat) (size : nat) (keys : list A) : list (Batch A) :=
  match fuel, keys with
  | _, [] => []
  | O, _ :: _ => []
  | S fuel', _ :: _ =>
      {| entries := take size keys |} :: chunks fuel' size (drop size keys)
  end.

(** Modelled from the spec: [chia.util.batches.to_batches] is imported by
    the store from another module of the repository.  Section 4.2
    (BatchPlanner): every input key appears in exactly one output chunk,
    each chunk has at most [limit] keys, there are [ceil(|keys| / limit)]
    chunks, the plan is deterministic for a fixed input order, a
    [limit <= 0] fails fast, and an empty input has no chunk.  The keys are
    cut, in their iteration order, into consecutive runs of [limit]. *)
Definition to_batches {A} (to_split : list A) (batch_size : Z)
    : result (list (Batch A)) :=
  if decide (batch_size ≤ 0) then Raise ValueError
  else Ok (chunks (length to_split) (Z.to_nat batch_size) to_split).

(** ** The values two of the methods return *)

(** [get_coin_ids_by_hints_paginated] has two return statements:
    [return []] at line 63 and the triple at line 103. *)
Inductive PageReturn :=
| ReturnList (l : list bytes)
| ReturnTuple (coin_ids : list bytes) (next_last_id : option bytes)
    (total_coin_count : option Z).

(** [get_hints_for_coin_ids] likewise: [return []] at line 154 and the
    dictionary at line 169. *)
Inductive HintsReturn :=
| ReturnEmptyList
| ReturnDict (coin_id_hint_dict : gmap bytes bytes).

(** ** HintStore *)

Section HintStore.

(** [chia.util.db_wrapper.SQLITE_MAX_VARIABLE_NUMBER], a constant that the
    store imports from another module of the repository. *)
Variable SQLITE_MAX_VARIABLE_NUMBER : Z.

(** Lines 34-39. *)
Definition get_coin_ids (hint_ : bytes) (max_items : Z) : DB (list bytes) :=
  let* rows := fetchall COIN_ID (HintEq hint_) false (LIMIT_PARAMETER max_items) in
  lift (comprehension (λ row, bytes32 (coin_id row)) rows).

(** Lines 41-53. *)
Definition get_coin_ids_by_hints (hints : list bytes) : DB (list bytes) :=
  if decide (length hints = 0%nat) then ret []
  else
    let* rows := fetchall COIN_ID (HintIn hints) false NO_LIMIT in
    for_each rows (λ row coin_ids, ret (coin_ids ++ [coin_id row])) [].

(** Lines 55-103. *)
Definition get_coin_ids_by_hints_paginated (hints : list bytes)
    (page_size : Z) (last_id : option bytes) : DB PageReturn :=
  if decide (length hints = 0%nat) then ret (ReturnList [])
  else
    let where_ :=
      match last_id with
      | None => HintIn hints
      | Some c => And (HintIn hints) (CoinIdGt c)
      end in
    let* total_coin_count :=
      match last_id with
      | None => let* n := fetchone_count (Some (HintIn hints)) in ret (Some n)
      | Some _ => ret None
      end in
    let* rows := fetchall COIN_ID where_ true (LIMIT_LITERAL page_size) in
    let* coin_ids := for_each rows (λ row coin_ids, ret (coin_ids ++ [coin_id row])) [] in
    let next_last_id :=
      if decide (0 < length coin_ids)%nat then last coin_ids else last_id in
    ret (ReturnTuple coin_ids next_last_id total_coin_count).

(** Lines 106-121. *)
Definition get_coin_ids_multi (hints : list bytes) (max_items : Z)
    : DB (list bytes) :=
  let* batches := lift (to_batches hints SQLITE_MAX_VARIABLE_NUMBER) in
  for_each batches
    (λ batch coin_ids,
       let* rows := fetchall_indexed_by hint_index COIN_ID
                (HintIn (entries batch)) (LIMIT_PARAMETER max_items) in
       let* ids := lift (comprehension (λ row, bytes32 (coin_id row)) rows) in
       ret (coin_ids ++ ids))
    [].

(** Lines 123-137. *)
Definition get_hints (coin_ids : list bytes) : DB (list bytes) :=
  let* batches := lift (to_batches coin_ids SQLITE_MAX_VARIABLE_NUMBER) in
  for_each batches
    (λ batch hints,
       let* rows := fetchall HINT (CoinIdIn (entries batch)) false NO_LIMIT in
       let* hs := lift (comprehension (λ row, bytes32 (hint row))
                    (filter (λ row, length (hint row) = 32%nat) rows)) in
       ret (hints ++ hs))
    [].

(** Lines 139-148. *)
Definition add_hints (coin_hint_list : list Row) : DB unit :=
  if decide (length coin_hint_list = 0%nat) then ret tt
  else executemany_insert_or_ignore coin_hint_list.

(** Lines 150-169. *)
Definition get_hints_for_coin_ids (coin_ids : list bytes) : DB HintsReturn :=
  if decide (length coin_ids = 0%nat) then ret ReturnEmptyList
  else
    let* rows := fetchall_indexed_by sqlite_autoindex_hints_1 COIN_ID_HINT
              (CoinIdIn coin_ids) NO_LIMIT in
    let* d := for_each rows
          (λ row (d : gmap bytes bytes), ret (<[coin_id row := hint row]> d)) ∅ in
    ret (ReturnDict d).

(** Lines 171-179. *)
Definition count_hints : DB Z :=
  fetchone_count None.

End HintStore.

(** ** The caller's side of pagination *)

(** Section 4.4 of the specification: the caller starts without a cursor,
    passes each page's [next_last_id] to the next call, and stops at the
    first page with fewer than [page_size] entries.  The triple is unpacked
    from the returned value, which raises [ValueError] on a bare list.
    [fuel] bounds the number of calls. *)
Fixpoint collect_pages (fuel : nat) (hints : list bytes) (page_size : Z)
    (cursor : option bytes) : DB (option (list (list bytes))) :=
  match fuel with
  | O => ret None
  | S fuel' =>
      let* r := get_coin_ids_by_hints_paginated hints page_size cursor in
      match r with
      | ReturnList _ => raise ValueError
      | ReturnTuple coin_ids next_last_id _ =>
          if decide (Z.of_nat (length coin_ids) < page_size)
          then ret (Some [coin_ids])
          else
            let* rest := collect_pages fuel' hints page_size next_last_id in
            ret (cons coin_ids <$> rest)
      end
  end.

(** ** Concrete stores and keys *)

Definition byte_of_nat (n : nat) : byte := default x00 (Byte.of_nat n).

(** A 32-byte identifier and a hint, numbered. *)
Definition id32 (n : nat) : bytes :=
  replicate 30 x00 ++ [byte_of_nat (n / 256); byte_of_nat (n mod 256)].

Definition hint32 (n : nat) : bytes :=
  replicate 30 xff ++ [byte_of_nat (n / 256); byte_of_nat (n mod 256)].

Definition hint10 : bytes := replicate 10 x07.

Definition row (c h : bytes) : Row := {| coin_id := c; hint := h |}.

Definition store (limit : nat) (rows : list Row) : DBWrapper2 :=
  {| host_parameter_limit := limit; hints_table := rows; journal := [] |}.

(** One item stored under two hints. *)
Definition two_hints_one_item : list Row :=
  [row (id32 1) (hint32 1); row (id32 1) (hint32 2)].

(** Three items, the second stored under two hints. *)
Definition three_items : list Row :=
  [row (id32 2) (hint32 1); row (id32 1) (hint32 2);
   row (id32 2) (hint32 2); row (id32 3) (hint32 1)].

(** Three items under two hints, each item stored once. *)
Definition distinct_items : list Row :=
  [row (id32 3) (hint32 1); row (id32 1) (hint32 2); row (id32 2) (hint32 1)].

(** 5000 distinct hints, one item each. *)
Definition hints5000 : list bytes := hint32 <$> seq 0 5000.
Definition rows5000 : list Row := (λ n, row (id32 n) (hint32 n)) <$> seq 0 5000.

(** ** What the batched methods send and receive, chunk by chunk *)

Definition chunk_statement (max_items : Z) (b : Batch bytes) : Statement :=
  SELECT COIN_ID (HintIn (entries b)) false (LIMIT_PARAMETER max_items).

Definition chunk_answer (max_items : Z) (table : list Row) (b : Batch bytes)
    : list bytes :=
  coin_id <$> select_rows_indexed_by hint_index (HintIn (entries b))
                (LIMIT_PARAMETER max_items) table.

(** Rows of the table that match one chunk of hints, before any LIMIT: in
    rowid order. *)
Definition chunk_matches (table : list Row) (b : Batch bytes) : list Row :=
  filter (satisfies (HintIn (entries b))) table.

Definition hints_statement (b : Batch bytes) : Statement :=
  SELECT HINT (CoinIdIn (entries b)) false NO_LIMIT.

Definition hints_answer (table : list Row) (b : Batch bytes) : list bytes :=
  hint <$> filter (λ r, length (hint r) = 32%nat)
             (select_rows (CoinIdIn (entries b)) false NO_LIMIT table).

(** The store's tables hold 32-byte coin ids: [add_hints] takes them as
    [bytes32]. *)
Definition coin_ids_sized (table : list Row) : Prop :=
  Forall (λ r, length (coin_id r) = 32%nat) table.

(** ** What one call of the paginated query sends and receives *)

Definition page_where (hints : list bytes) (last_id : option bytes) : Predicate :=
  match last_id with
  | None => HintIn hints
  | Some c => And (HintIn hints) (CoinIdGt c)
  end.

Definition page_ids (hints : list bytes) (page_size : Z) (last_id : option bytes)
    (table : list Row) : list bytes :=
  coin_id <$> select_rows (page_where hints last_id) true (LIMIT_LITERAL page_size) table.

Definition page_statements (hints : list bytes) (page_size : Z)
    (last_id : option bytes) : list Statement :=
  match last_id with
  | None => [SELECT_COUNT (Some (HintIn hints))]
  | Some _ => []
  end ++ [SELECT COIN_ID (page_where hints last_id) true (LIMIT_LITERAL page_size)].

(** ** Pages over the ascending coin ids *)

(** The coin ids of the rows whose hint is queried, one per row: in table
    order, and in ascending order. *)
Definition matching_ids (hints : list bytes) (table : list Row) : list bytes :=
  coin_id <$> filter (satisfies (HintIn hints)) table.

Definition ascending_ids (hints : list bytes) (table : list Row) : list bytes :=
  merge_sort bytes_le (matching_ids hints table).

(** What remains strictly after a cursor. *)
Definition after (cursor : option bytes) (ids : list bytes) : list bytes :=
  match cursor with
  | None => ids
  | Some c => filter (bytes_lt c) ids
  end.

(** [paged n ids pages]: [pages] are the pages of [n] entries cut from the
    ascending list [ids], each full page followed by what remains strictly
    after its last entry, up to the first page that is not full. *)
Inductive paged (n : nat) : list bytes → list (list bytes) → Prop :=
| paged_last ids :
    (length ids < n)%nat → paged n ids [ids]
| paged_more ids x pages :
    (n ≤ length ids)%nat →
    last (take n ids) = Some x →
    paged n (filter (bytes_lt x) (drop n ids)) pages →
    paged n ids (take n ids :: pages).

(** ** What a read leaves in place *)

(** A computation that keeps the rows and the backend's limit as they are
    and only adds to the statements sent, whether it returns or raises. *)
Definition read_only {A} (m : DB A) : Prop :=
  ∀ db,
    hints_table (snd (m db)) = hints_table db
    ∧ host_parameter_limit (snd (m db)) = host_parameter_limit db
    ∧ journal db `prefix_of` journal (snd (m db)).

(** * Properties *)

(** ** The byte-lexicographic order *)

Lemma byte_to_N_inj (x y : byte) : Byte.to_N x = Byte.to_N y → x = y.
Proof.
  intros E. apply (inj Some).
  by rewrite <- (Byte.of_to_N x), <- (Byte.of_to_N y), E.
Qed.

Ltac byte_cases x y :=
  destruct (N.ltb_spec (Byte.to_N x) (Byte.to_N y));
  destruct (N.eqb_spec (Byte.to_N x) (Byte.to_N y));
  destruct (N.ltb_spec (Byte.to_N y) (Byte.to_N x));
  destruct (N.eqb_spec (Byte.to_N y) (Byte.to_N x));
  try lia.

Lemma bytes_leb_refl a : bytes_leb a a = true.
Proof.
  induction a as [|x a IH]; simpl; [done|].
  rewrite N.ltb_irrefl, N.eqb_refl. exact IH.
Qed.

Lemma bytes_leb_total a b : bytes_leb a b = true ∨ bytes_leb b a = true.
Proof.
  revert b. induction a as [|x a IH]; intros [|y b]; simpl; auto.
  byte_cases x y; auto.
Qed.

Lemma bytes_leb_antisym a b :
  bytes_leb a b = true → bytes_leb b a = true → a = b.
Proof.
  revert b. induction a as [|x a IH]; intros [|y b]; simpl; try done.
  byte_cases x y; try done.
  intros Hab Hba. f_equal; [by apply byte_to_N_inj | by apply IH].
Qed.

Lemma bytes_leb_trans a b c :
  bytes_leb a b = true → bytes_leb b c = true → bytes_leb a c = true.
Proof.
  revert b c. induction a as [|x a IH]; intros [|y b] [|z c]; simpl; try done.
  destruct (N.ltb_spec (Byte.to_N x) (Byte.to_N y));
    destruct (N.eqb_spec (Byte.to_N x) (Byte.to_N y));
    destruct (N.ltb_spec (Byte.to_N y) (Byte.to_N z));
    destruct (N.eqb_spec (Byte.to_N y) (Byte.to_N z));
    destruct (N.ltb_spec (Byte.to_N x) (Byte.to_N z));
    destruct (N.eqb_spec (Byte.to_N x) (Byte.to_N z));
    try done; try lia.
  apply IH.
Qed.

#[global] Instance bytes_le_refl : Reflexive bytes_le.
Proof. intros a. apply bytes_leb_refl. Qed.

#[global] Instance bytes_le_trans : Transitive bytes_le.
Proof. intros a b c. apply bytes_leb_trans. Qed.

#[global] Instance bytes_le_total : Total bytes_le.
Proof. intros a b. apply bytes_leb_total. Qed.

#[global] Instance bytes_le_antisym : AntiSymm (=) bytes_le.
Proof. intros a b. apply bytes_leb_antisym. Qed.

Lemma bytes_lt_not_le a b : bytes_lt a b ↔ ¬ bytes_le b a.
Proof. unfold bytes_lt, bytes_le. destruct (bytes_leb b a); naive_solver. Qed.

Lemma bytes_lt_le a b : bytes_lt a b → bytes_le a b.
Proof.
  rewrite bytes_lt_not_le. intros H. by destruct (total bytes_le a b).
Qed.

Lemma bytes_lt_ne a b : bytes_lt a b → a ≠ b.
Proof. rewrite bytes_lt_not_le. intros H ->. by apply H. Qed.

Lemma bytes_le_lt_or_eq a b : bytes_le a b → bytes_lt a b ∨ a = b.
Proof.
  intros H. destruct (decide (bytes_le b a)) as [H'|H'].
  - right. by apply (anti_symm bytes_le).
  - left. by apply bytes_lt_not_le.
Qed.

Lemma bytes_le_lt_trans a b c : bytes_le a b → bytes_lt b c → bytes_lt a c.
Proof.
  rewrite !bytes_lt_not_le. intros Hab Hbc Hca. apply Hbc. by trans a.
Qed.

Lemma bytes_lt_le_trans a b c : bytes_lt a b → bytes_le b c → bytes_lt a c.
Proof.
  rewrite !bytes_lt_not_le. intros Hab Hbc Hca. apply Hab. by trans c.
Qed.

#[global] Instance bytes_lt_trans : Transitive bytes_lt.
Proof. intros a b c Hab Hbc. eapply bytes_lt_le_trans; [done|]. by apply bytes_lt_le. Qed.

#[global] Instance bytes_lt_irrefl : Irreflexive bytes_lt.
Proof. intros a H. by apply (bytes_lt_ne a a). Qed.

#[global] Instance row_le_trans : Transitive row_le.
Proof. intros a b c. unfold row_le. apply transitivity. Qed.

#[global] Instance row_le_total : Total row_le.
Proof. intros a b. unfold row_le. apply total, _. Qed.

(** ** Running the monad *)

Lemma with_journal_nil db : with_journal db [] = db.
Proof. destruct db. unfold with_journal. simpl. by rewrite app_nil_r. Qed.

Lemma with_journal_app db s1 s2 :
  with_journal (with_journal db s1) s2 = with_journal db (s1 ++ s2).
Proof. unfold with_journal. simpl. by rewrite app_assoc. Qed.

Lemma send_accepted st db :
  (bound_parameters st ≤ host_parameter_limit db)%nat →
  send st db = (Ok tt, with_journal db [st]).
Proof. intros H. unfold send. by rewrite decide_True. Qed.

Lemma send_rejected st db :
  (host_parameter_limit db < bound_parameters st)%nat →
  send st db = (Raise OperationalError, with_journal db [st]).
Proof. intros H. unfold send. rewrite decide_False; [done | lia]. Qed.

Lemma execute_fetchall_accepted st lim answer db :
  (bound_parameters st ≤ host_parameter_limit db)%nat →
  limit_error lim = None →
  execute_fetchall st lim answer db =
    (Ok (answer (hints_table db)), with_journal db [st]).
Proof.
  intros H Hlim. unfold execute_fetchall, bind.
  rewrite send_accepted by done. by rewrite Hlim.
Qed.

Lemma execute_fetchall_rejected st lim answer db :
  (host_parameter_limit db < bound_parameters st)%nat →
  execute_fetchall st lim answer db =
    (Raise OperationalError, with_journal db [st]).
Proof. intros H. unfold execute_fetchall, bind. by rewrite send_rejected. Qed.

Lemma execute_fetchall_out_of_range st lim answer e db :
  (bound_parameters st ≤ host_parameter_limit db)%nat →
  limit_error lim = Some e →
  execute_fetchall st lim answer db = (Raise e, with_journal db [st]).
Proof.
  intros H Hlim. unfold execute_fetchall, bind.
  rewrite send_accepted by done. by rewrite Hlim.
Qed.

Lemma int64_positive n : 0 < n < 2 ^ 63 → int64 n.
Proof. unfold int64. lia. Qed.

Lemma int64_nonnegative n : 0 ≤ n < 2 ^ 63 → int64 n.
Proof. unfold int64. lia. Qed.

Lemma limit_error_parameter n : int64 n → limit_error (LIMIT_PARAMETER n) = None.
Proof. intros H. simpl. by rewrite decide_True. Qed.

Lemma limit_error_literal n : int64 n → limit_error (LIMIT_LITERAL n) = None.
Proof. intros H. simpl. by rewrite decide_True. Qed.

Lemma fetchall_accepted cols w o lim db :
  (bound_parameters (SELECT cols w o lim) ≤ host_parameter_limit db)%nat →
  limit_error lim = None →
  fetchall cols w o lim db =
    (Ok (select_rows w o lim (hints_table db)),
     with_journal db [SELECT cols w o lim]).
Proof. apply execute_fetchall_accepted. Qed.

Lemma fetchall_rejected cols w o lim db :
  (host_parameter_limit db < bound_parameters (SELECT cols w o lim))%nat →
  fetchall cols w o lim db =
    (Raise OperationalError, with_journal db [SELECT cols w o lim]).
Proof. apply execute_fetchall_rejected. Qed.

Lemma fetchall_out_of_range cols w o lim e db :
  (bound_parameters (SELECT cols w o lim) ≤ host_parameter_limit db)%nat →
  limit_error lim = Some e →
  fetchall cols w o lim db = (Raise e, with_journal db [SELECT cols w o lim]).
Proof. apply execute_fetchall_out_of_range. Qed.

Lemma fetchall_indexed_by_out_of_range ix cols w lim e db :
  (bound_parameters (SELECT cols w false lim) ≤ host_parameter_limit db)%nat →
  limit_error lim = Some e →
  fetchall_indexed_by ix cols w lim db
  = (Raise e, with_journal db [SELECT cols w false lim]).
Proof. apply execute_fetchall_out_of_range. Qed.

Lemma fetchall_indexed_by_accepted ix cols w lim db :
  (bound_parameters (SELECT cols w false lim) ≤ host_parameter_limit db)%nat →
  limit_error lim = None →
  fetchall_indexed_by ix cols w lim db =
    (Ok (select_rows_indexed_by ix w lim (hints_table db)),
     with_journal db [SELECT cols w false lim]).
Proof. apply execute_fetchall_accepted. Qed.

Lemma fetchall_indexed_by_rejected ix cols w lim db :
  (host_parameter_limit db < bound_parameters (SELECT cols w false lim))%nat →
  fetchall_indexed_by ix cols w lim db =
    (Raise OperationalError, with_journal db [SELECT cols w false lim]).
Proof. apply execute_fetchall_rejected. Qed.

Lemma fetchone_count_accepted w db :
  (bound_parameters (SELECT_COUNT w) ≤ host_parameter_limit db)%nat →
  fetchone_count w db =
    (Ok (count_rows w (hints_table db)), with_journal db [SELECT_COUNT w]).
Proof. intros H. unfold fetchone_count, bind. by rewrite send_accepted. Qed.

(** The loops of the store that only append to a list. *)
Lemma for_each_append {A B} (f : A → B) (l : list A) (acc : list B) db :
  for_each l (λ x acc, ret (acc ++ [f x])) acc db = (Ok (acc ++ (f <$> l)), db).
Proof.
  revert acc. induction l as [|x l IH]; intros acc; simpl.
  - by rewrite app_nil_r.
  - unfold bind, ret at 1. rewrite IH. by rewrite <- app_assoc.
Qed.

Lemma comprehension_bytes32 {A} (f : A → bytes) (l : list A) :
  Forall (λ x, length (f x) = 32%nat) l →
  comprehension (λ x, bytes32 (f x)) l = Ok (f <$> l).
Proof.
  induction 1 as [|x l Hx _ IH]; simpl; [done|].
  unfold bytes32 at 1. rewrite decide_True by done. by rewrite IH.
Qed.

Lemma limit_count_length {A} (n : Z) (l : list A) :
  0 ≤ n → Z.of_nat (length (limit_count n l)) ≤ n.
Proof.
  intros H. unfold limit_count. rewrite decide_False by lia.
  rewrite length_take. lia.
Qed.

Lemma limit_count_all {A} (n : Z) (l : list A) :
  n < 0 ∨ Z.of_nat (length l) ≤ n → limit_count n l = l.
Proof.
  intros H. unfold limit_count. case_decide; [done|].
  apply take_ge. lia.
Qed.

Lemma limit_count_sublist {A} (n : Z) (l : list A) : limit_count n l `sublist_of` l.
Proof. unfold limit_count. case_decide; [done|]. apply sublist_take. Qed.

(** ** The batch plan *)

Lemma chunks_concat {A} fuel size (keys : list A) :
  (0 < size)%nat → (length keys ≤ fuel)%nat →
  concat (entries <$> chunks fuel size keys) = keys.
Proof.
  intros Hsize. revert keys.
  induction fuel as [|fuel IH]; intros [|k keys] Hlen; simpl in *; try done; try lia.
  destruct size as [|size]; [lia|]. simpl.
  rewrite IH; [by rewrite take_drop | rewrite length_drop; lia].
Qed.

Lemma chunks_sizes {A} fuel size (keys : list A) :
  (0 < size)%nat →
  Forall (λ b, 0 < length (entries b) ≤ size)%nat (chunks fuel size keys).
Proof.
  intros Hsize. revert keys.
  induction fuel as [|fuel IH]; intros [|k keys]; simpl; try by constructor.
  constructor; [|apply IH].
  simpl. destruct size as [|size]; [lia|]. simpl.
  rewrite length_take. lia.
Qed.

Lemma ceil_div_step (n size : nat) :
  (0 < size)%nat → (0 < n)%nat →
  ((n + size - 1) / size)%nat = S ((n - size + size - 1) / size)%nat.
Proof.
  intros Hsize Hn.
  destruct (decide (n ≤ size)%nat) as [Hle|Hgt].
  - replace (n - size + size - 1)%nat with (size - 1)%nat by lia.
    rewrite (Nat.div_small (size - 1)) by lia.
    symmetry. apply (Nat.div_unique _ _ 1 (n - 1)); lia.
  - replace (n + size - 1)%nat with ((n - size + size - 1) + 1 * size)%nat by lia.
    rewrite Nat.div_add by lia. lia.
Qed.

Lemma chunks_count {A} fuel size (keys : list A) :
  (0 < size)%nat → (length keys ≤ fuel)%nat →
  length (chunks fuel size keys) = ((length keys + size - 1) / size)%nat.
Proof.
  intros Hsize. revert keys.
  induction fuel as [|fuel IH]; intros keys Hlen.
  - destruct keys; [|simpl in Hlen; lia].
    simpl. symmetry. apply Nat.div_small. lia.
  - destruct keys as [|k keys].
    + simpl. symmetry. apply Nat.div_small. lia.
    + rewrite ceil_div_step by (simpl; lia).
      cbn [chunks length]. f_equal.
      rewrite IH by (rewrite length_drop; simpl in *; lia).
      by rewrite length_drop.
Qed.

Lemma to_batches_ok {A} (keys : list A) (batch_size : Z) :
  0 < batch_size →
  ∃ batches, to_batches keys batch_size = Ok batches
    ∧ concat (entries <$> batches) = keys
    ∧ Forall (λ b, 0 < length (entries b) ≤ Z.to_nat batch_size)%nat batches
    ∧ length batches
      = ((length keys + Z.to_nat batch_size - 1) / Z.to_nat batch_size)%nat.
Proof.
  intros H. eexists. unfold to_batches. rewrite decide_False by lia.
  split; [done|]. split; [|split].
  - apply chunks_concat; lia.
  - apply chunks_sizes; lia.
  - apply chunks_count; lia.
Qed.

Lemma to_batches_nonempty {A} (keys : list A) (batch_size : Z) batches :
  to_batches keys batch_size = Ok batches → keys ≠ [] → batches ≠ [].
Proof.
  unfold to_batches. case_decide; [done|]. intros [= <-] Hne.
  destruct keys; [done|]. done.
Qed.

(** ** Concatenation *)

Lemma concat_join {A} (ls : list (list A)) : concat ls = mjoin ls.
Proof. induction ls as [|l ls IH]; simpl; [done | by rewrite IH]. Qed.

Lemma elem_of_concat {A} (x : A) (ls : list (list A)) :
  x ∈ concat ls ↔ ∃ l, x ∈ l ∧ l ∈ ls.
Proof. rewrite concat_join. apply list_elem_of_join. Qed.

Lemma concat_fmap_app {A B} (f : A → list B) (l1 l2 : list A) :
  concat (f <$> (l1 ++ l2)) = concat (f <$> l1) ++ concat (f <$> l2).
Proof. by rewrite fmap_app, concat_app. Qed.

Lemma length_concat_le {A} (ls : list (list A)) (n : nat) :
  Forall (λ l, length l ≤ n)%nat ls → (length (concat ls) ≤ length ls * n)%nat.
Proof.
  induction 1 as [|l ls Hl _ IH]; simpl; [lia|].
  rewrite length_app. lia.
Qed.

Lemma to_batches_singleton {A} (x : A) (batch_size : Z) :
  0 < batch_size → to_batches [x] batch_size = Ok [{| entries := [x] |}].
Proof.
  intros H. unfold to_batches. rewrite decide_False by lia.
  destruct (Z.to_nat batch_size) as [|n] eqn:E; [lia|].
  simpl. rewrite take_nil, drop_nil. done.
Qed.

(** ** Filters *)

Lemma filter_none {A} (P : A → Prop) `{!∀ x, Decision (P x)} (l : list A) :
  (∀ x, x ∈ l → ¬ P x) → filter P l = [].
Proof.
  induction l as [|x l IH]; intros Hl; [done|].
  rewrite filter_cons_False by (apply Hl; by left).
  apply IH. intros y Hy. apply Hl. by right.
Qed.

Lemma filter_all {A} (P : A → Prop) `{!∀ x, Decision (P x)} (l : list A) :
  (∀ x, x ∈ l → P x) → filter P l = l.
Proof.
  induction l as [|x l IH]; intros Hl; [done|].
  rewrite filter_cons_True by (apply Hl; by left).
  f_equal. apply IH. intros y Hy. apply Hl. by right.
Qed.

Lemma filter_cons_elem_Permutation {A B} `{EqDecision B} (f : A → B)
    (h : B) (hs : list B) (l : list A) :
  h ∉ hs →
  filter (λ x, f x ∈ h :: hs) l
  ≡ₚ filter (λ x, f x = h) l ++ filter (λ x, f x ∈ hs) l.
Proof.
  intros Hh. induction l as [|x l IH]; [done|].
  destruct (decide (f x = h)) as [E|E].
  - rewrite (filter_cons_True (λ x, f x ∈ h :: hs)) by (rewrite E; by left).
    rewrite (filter_cons_True (λ x, f x = h)) by done.
    rewrite (filter_cons_False (λ x, f x ∈ hs)) by (by rewrite E).
    simpl. by rewrite IH.
  - rewrite (filter_cons_False (λ x, f x = h)) by done.
    destruct (decide (f x ∈ hs)) as [E'|E'].
    + rewrite (filter_cons_True (λ x, f x ∈ h :: hs)) by (by right).
      rewrite (filter_cons_True (λ x, f x ∈ hs)) by done.
      rewrite IH. apply Permutation_middle.
    + rewrite (filter_cons_False (λ x, f x ∈ h :: hs))
        by (by intros [?|?]%elem_of_cons).
      rewrite (filter_cons_False (λ x, f x ∈ hs)) by done.
      exact IH.
Qed.

Lemma filter_elem_Permutation {A B} `{EqDecision B} (f : A → B)
    (hs : list B) (l : list A) :
  NoDup hs →
  filter (λ x, f x ∈ hs) l ≡ₚ concat ((λ h, filter (λ x, f x = h) l) <$> hs).
Proof.
  induction 1 as [|h hs Hh _ IH]; simpl.
  - rewrite filter_none; [done|]. intros x _ Hx. by apply elem_of_nil in Hx.
  - by rewrite filter_cons_elem_Permutation, IH.
Qed.

Lemma concat_fmap_concat {A B} (F : A → list B) (ls : list (list A)) :
  concat (F <$> concat ls) = concat ((λ l, concat (F <$> l)) <$> ls).
Proof.
  induction ls as [|l ls IH]; simpl; [done|].
  by rewrite concat_fmap_app, IH.
Qed.

Lemma NoDup_concat_parts {A} (ls : list (list A)) :
  NoDup (concat ls) → Forall NoDup ls.
Proof.
  induction ls as [|l ls IH]; simpl; [by constructor|].
  intros (Hl & _ & Hls)%NoDup_app. constructor; [done | by apply IH].
Qed.

Lemma filter_HintIn hs (table : list Row) :
  filter (satisfies (HintIn hs)) table = filter (λ r, hint r ∈ hs) table.
Proof. by apply list_filter_iff. Qed.

Lemma filter_HintEq h (table : list Row) :
  filter (satisfies (HintEq h)) table = filter (λ r, hint r = h) table.
Proof. by apply list_filter_iff. Qed.

Lemma concat_fmap_fmap {A B C} (f : B → C) (F : A → list B) (l : list A) :
  f <$> concat (F <$> l) = concat ((λ x, f <$> F x) <$> l).
Proof.
  induction l as [|x l IH]; csimpl; [done|]. by rewrite fmap_app, IH.
Qed.

(** ** Sorted lists *)

Lemma StronglySorted_sublist {A} (R : relation A) (l1 l2 : list A) :
  l1 `sublist_of` l2 → StronglySorted R l2 → StronglySorted R l1.
Proof.
  induction 1 as [|x l1 l2 Hsub IH|x l1 l2 Hsub IH]; intros Hs; [done| |].
  - apply StronglySorted_inv in Hs as [Hs Hx]. constructor; [by apply IH|].
    rewrite Forall_forall in *. intros y Hy. apply Hx.
    by eapply elem_of_sublist.
  - apply StronglySorted_inv in Hs as [Hs _]. by apply IH.
Qed.

Lemma StronglySorted_last_max {A} (R : relation A) `{!Reflexive R} (l : list A) x z :
  StronglySorted R l → last l = Some x → z ∈ l → R z x.
Proof.
  intros Hs (l' & ->)%last_Some Hz.
  apply elem_of_app in Hz as [Hz | ->%list_elem_of_singleton]; [|done].
  eapply StronglySorted_app_1_elem_of; [done | done | by left].
Qed.

(** ** What a SELECT answers *)

Lemma apply_limit_sublist {A} lim (l : list A) : apply_limit lim l `sublist_of` l.
Proof. destruct lim; simpl; [done | apply limit_count_sublist ..]. Qed.

Lemma select_rows_elem_of w o lim table r :
  r ∈ select_rows w o lim table → r ∈ table ∧ satisfies w r.
Proof.
  unfold select_rows. intros Hr.
  apply (λ H, elem_of_sublist _ _ _ H (apply_limit_sublist _ _)) in Hr.
  destruct o.
  - rewrite merge_sort_Permutation in Hr. by apply list_elem_of_filter in Hr as [? ?].
  - by apply list_elem_of_filter in Hr as [? ?].
Qed.

Lemma select_rows_sized w o lim table :
  coin_ids_sized table → coin_ids_sized (select_rows w o lim table).
Proof.
  unfold coin_ids_sized. rewrite !Forall_forall. intros H r Hr.
  apply H. by apply select_rows_elem_of in Hr as [? _].
Qed.

(** ** Index scans *)

#[global] Instance hint_le_trans : Transitive hint_le.
Proof. intros a b c. unfold hint_le. apply transitivity. Qed.

#[global] Instance hint_le_total : Total hint_le.
Proof. intros a b. unfold hint_le. apply total, _. Qed.

Lemma concat_fmap_Permutation {A B} (F G : A → list B) (l : list A) :
  (∀ x, F x ≡ₚ G x) → concat (F <$> l) ≡ₚ concat (G <$> l).
Proof.
  intros H. induction l as [|x l IH]; simpl; [done|].
  by apply Permutation_app.
Qed.

Lemma index_keys_NoDup (keys : list bytes) :
  NoDup (merge_sort bytes_le (remove_dups keys)).
Proof. rewrite merge_sort_Permutation. apply NoDup_remove_dups. Qed.

Lemma index_keys_elem_of (keys : list bytes) k :
  k ∈ merge_sort bytes_le (remove_dups keys) ↔ k ∈ keys.
Proof. rewrite merge_sort_Permutation. apply elem_of_remove_dups. Qed.

(** A scan of an index visits every row of the table once. *)
Lemma index_scan_Permutation ix table : index_scan ix table ≡ₚ table.
Proof.
  destruct ix; unfold index_scan.
  - rewrite <- (filter_elem_Permutation hint _ table (index_keys_NoDup _)).
    rewrite filter_all; [done|].
    intros r Hr. apply index_keys_elem_of. by apply list_elem_of_fmap_2.
  - rewrite (concat_fmap_Permutation _ (λ c, filter (λ r, coin_id r = c) table))
      by (intros c; apply merge_sort_Permutation).
    rewrite <- (filter_elem_Permutation coin_id _ table (index_keys_NoDup _)).
    rewrite filter_all; [done|].
    intros r Hr. apply index_keys_elem_of. by apply list_elem_of_fmap_2.
Qed.

Lemma index_scan_elem_of ix table r : r ∈ index_scan ix table ↔ r ∈ table.
Proof. by rewrite index_scan_Permutation. Qed.

Lemma select_rows_indexed_by_elem_of ix w lim table r :
  r ∈ select_rows_indexed_by ix w lim table → r ∈ table ∧ satisfies w r.
Proof.
  unfold select_rows_indexed_by. intros Hr.
  assert (Hr' : r ∈ filter (satisfies w) (index_scan ix table))
    by (eapply elem_of_sublist; [exact Hr | apply apply_limit_sublist]).
  apply list_elem_of_filter in Hr' as [Hw Hr'].
  split; [by apply index_scan_elem_of in Hr' | done].
Qed.

Lemma select_rows_indexed_by_sized ix w lim table :
  coin_ids_sized table → coin_ids_sized (select_rows_indexed_by ix w lim table).
Proof.
  unfold coin_ids_sized. rewrite !Forall_forall. intros H r Hr.
  apply H. by apply select_rows_indexed_by_elem_of in Hr as [? _].
Qed.

(** The rows of one key within a list that goes key by key. *)
Lemma filter_concat_key {A B} `{EqDecision B} (f : A → B) (F : B → list A)
    (keys : list B) (k : B) :
  NoDup keys → (∀ k' x, x ∈ F k' → f x = k') →
  filter (λ x, f x = k) (concat (F <$> keys))
  = if decide (k ∈ keys) then F k else [].
Proof.
  intros Hnd HF. induction Hnd as [|k' keys Hk' _ IH]; csimpl.
  - done.
  - rewrite filter_app, IH.
    destruct (decide (k' = k)) as [->|Hne].
    + rewrite filter_all by (intros x Hx; by apply (HF k)).
      rewrite (decide_True (P := k ∈ k :: keys)) by (by left).
      rewrite (decide_False (P := k ∈ keys)) by done. by rewrite app_nil_r.
    + rewrite filter_none
        by (intros x Hx E; apply Hne; by rewrite <- (HF k' x Hx)).
      simpl. destruct (decide (k ∈ keys)) as [Hin|Hin].
      * rewrite decide_True; [done | by right].
      * rewrite decide_False; [done|]. by intros [?|?]%elem_of_cons.
Qed.

(** Under one coin id, [sqlite_autoindex_hints_1] gives the rows by
    ascending hint. *)
Lemma autoindex_scan_coin_id table c :
  filter (λ r, coin_id r = c) (index_scan sqlite_autoindex_hints_1 table)
  = merge_sort hint_le (filter (λ r, coin_id r = c) table).
Proof.
  unfold index_scan.
  rewrite (filter_concat_key coin_id
             (λ c, merge_sort hint_le (filter (λ r, coin_id r = c) table)))
    by (apply index_keys_NoDup
        || (intros k x Hx; rewrite merge_sort_Permutation in Hx;
            by apply list_elem_of_filter in Hx as [? _])).
  case_decide as Hc; [done|].
  rewrite filter_none; [done|].
  intros r Hr E. apply Hc, index_keys_elem_of. rewrite <- E.
  by apply list_elem_of_fmap_2.
Qed.

(** Under one hint, [hint_index] gives the rows by rowid. *)
Lemma hint_index_scan_hint table h :
  filter (λ r, hint r = h) (index_scan hint_index table)
  = filter (λ r, hint r = h) table.
Proof.
  unfold index_scan.
  rewrite (filter_concat_key hint (λ h, filter (λ r, hint r = h) table))
    by (apply index_keys_NoDup
        || (intros k x Hx; by apply list_elem_of_filter in Hx as [? _])).
  case_decide as Hh; [done|].
  rewrite filter_none; [done|].
  intros r Hr E. apply Hh, index_keys_elem_of. rewrite <- E.
  by apply list_elem_of_fmap_2.
Qed.

(** ** The batched loops *)

Lemma get_coin_ids_multi_loop max_items batches acc db :
  int64 max_items →
  Forall (λ b, length (entries b) + 1 ≤ host_parameter_limit db)%nat batches →
  coin_ids_sized (hints_table db) →
  for_each batches
    (λ batch coin_ids,
       let* rows := fetchall_indexed_by hint_index COIN_ID
                      (HintIn (entries batch)) (LIMIT_PARAMETER max_items) in
       let* ids := lift (comprehension (λ row, bytes32 (coin_id row)) rows) in
       ret (coin_ids ++ ids))
    acc db
  = (Ok (acc ++ concat (chunk_answer max_items (hints_table db) <$> batches)),
     with_journal db (chunk_statement max_items <$> batches)).
Proof.
  intros Hmax Hlim Hsized. revert acc db Hlim Hsized.
  induction batches as [|b batches IH]; intros acc db Hlim Hsized.
  - simpl. unfold ret. by rewrite app_nil_r, with_journal_nil.
  - apply Forall_cons in Hlim as [Hb Hlim].
    cbn [for_each]. unfold bind at 1. unfold bind at 1.
    rewrite fetchall_indexed_by_accepted
      by (by apply limit_error_parameter || (simpl; lia)).
    unfold bind at 1, lift.
    rewrite comprehension_bytes32
      by (apply (select_rows_indexed_by_sized hint_index (HintIn (entries b))),
            Hsized).
    unfold ret at 1.
    rewrite IH by done. simpl.
    rewrite with_journal_app. by rewrite <- app_assoc.
Qed.

Lemma get_hints_loop batches acc db :
  Forall (λ b, length (entries b) ≤ host_parameter_limit db)%nat batches →
  for_each batches
    (λ batch hints,
       let* rows := fetchall HINT (CoinIdIn (entries batch)) false NO_LIMIT in
       let* hs := lift (comprehension (λ row, bytes32 (hint row))
                          (filter (λ row, length (hint row) = 32%nat) rows)) in
       ret (hints ++ hs))
    acc db
  = (Ok (acc ++ concat (hints_answer (hints_table db) <$> batches)),
     with_journal db (hints_statement <$> batches)).
Proof.
  intros Hlim. revert acc db Hlim.
  induction batches as [|b batches IH]; intros acc db Hlim.
  - simpl. unfold ret. by rewrite app_nil_r, with_journal_nil.
  - apply Forall_cons in Hlim as [Hb Hlim].
    cbn [for_each]. unfold bind at 1. unfold bind at 1.
    rewrite fetchall_accepted by (done || (simpl; lia)).
    unfold bind at 1, lift.
    rewrite comprehension_bytes32 by (apply Forall_forall; intros r Hr;
      by apply list_elem_of_filter in Hr as [? _]).
    unfold ret at 1.
    rewrite IH by done. simpl.
    rewrite with_journal_app. by rewrite <- app_assoc.
Qed.

(** ** One call of each method *)

Lemma get_coin_ids_multi_run SQLITE_MAX_VARIABLE_NUMBER hints max_items db :
  0 < SQLITE_MAX_VARIABLE_NUMBER →
  int64 max_items →
  (Z.to_nat SQLITE_MAX_VARIABLE_NUMBER + 1 ≤ host_parameter_limit db)%nat →
  coin_ids_sized (hints_table db) →
  ∃ batches,
    to_batches hints SQLITE_MAX_VARIABLE_NUMBER = Ok batches
    ∧ get_coin_ids_multi SQLITE_MAX_VARIABLE_NUMBER hints max_items db
      = (Ok (concat (chunk_answer max_items (hints_table db) <$> batches)),
         with_journal db (chunk_statement max_items <$> batches)).
Proof.
  intros Hpos Hmax Hlim Hsized.
  destruct (to_batches_ok hints _ Hpos) as (batches & E & _ & Hsizes & _).
  exists batches. split; [done|].
  unfold get_coin_ids_multi, bind at 1, lift. rewrite E.
  rewrite get_coin_ids_multi_loop; [done|done| |done].
  eapply Forall_impl; [exact Hsizes|]. simpl. lia.
Qed.

Lemma get_hints_run SQLITE_MAX_VARIABLE_NUMBER coin_ids db :
  0 < SQLITE_MAX_VARIABLE_NUMBER →
  (Z.to_nat SQLITE_MAX_VARIABLE_NUMBER ≤ host_parameter_limit db)%nat →
  ∃ batches,
    to_batches coin_ids SQLITE_MAX_VARIABLE_NUMBER = Ok batches
    ∧ get_hints SQLITE_MAX_VARIABLE_NUMBER coin_ids db
      = (Ok (concat (hints_answer (hints_table db) <$> batches)),
         with_journal db (hints_statement <$> batches)).
Proof.
  intros Hpos Hlim.
  destruct (to_batches_ok coin_ids _ Hpos) as (batches & E & _ & Hsizes & _).
  exists batches. split; [done|].
  unfold get_hints, bind at 1, lift. rewrite E.
  rewrite get_hints_loop; [done|].
  eapply Forall_impl; [exact Hsizes|]. simpl. lia.
Qed.

Lemma get_coin_ids_by_hints_run hints db :
  hints ≠ [] →
  (length hints ≤ host_parameter_limit db)%nat →
  get_coin_ids_by_hints hints db
  = (Ok (matching_ids hints (hints_table db)),
     with_journal db [SELECT COIN_ID (HintIn hints) false NO_LIMIT]).
Proof.
  intros Hne Hlim. unfold get_coin_ids_by_hints.
  rewrite decide_False by by destruct hints.
  unfold bind. rewrite fetchall_accepted by (done || (simpl; lia)).
  by rewrite for_each_append.
Qed.

Lemma get_coin_ids_run hint_ max_items db :
  int64 max_items →
  (2 ≤ host_parameter_limit db)%nat →
  coin_ids_sized (hints_table db) →
  get_coin_ids hint_ max_items db
  = (Ok (coin_id <$> select_rows (HintEq hint_) false (LIMIT_PARAMETER max_items)
                       (hints_table db)),
     with_journal db [SELECT COIN_ID (HintEq hint_) false (LIMIT_PARAMETER max_items)]).
Proof.
  intros Hmax Hlim Hsized. unfold get_coin_ids, bind.
  rewrite fetchall_accepted by (by apply limit_error_parameter || (simpl; lia)).
  unfold lift. by rewrite comprehension_bytes32 by by apply select_rows_sized.
Qed.

Lemma page_parameters hints page_size last_id :
  bound_parameters
    (SELECT COIN_ID (page_where hints last_id) true (LIMIT_LITERAL page_size))
  = (length hints + match last_id with None => 0 | Some _ => 1 end)%nat.
Proof. destruct last_id; simpl; lia. Qed.

Lemma get_coin_ids_by_hints_paginated_run hints page_size last_id db :
  hints ≠ [] →
  int64 page_size →
  (length hints + match last_id with None => 0 | Some _ => 1 end
   ≤ host_parameter_limit db)%nat →
  get_coin_ids_by_hints_paginated hints page_size last_id db
  = (Ok (ReturnTuple
           (page_ids hints page_size last_id (hints_table db))
           (if decide (0 < length (page_ids hints page_size last_id (hints_table db)))%nat
            then last (page_ids hints page_size last_id (hints_table db))
            else last_id)
           match last_id with
           | None => Some (count_rows (Some (HintIn hints)) (hints_table db))
           | Some _ => None
           end),
     with_journal db (page_statements hints page_size last_id)).
Proof.
  intros Hne Hsize Hlim. unfold get_coin_ids_by_hints_paginated.
  rewrite decide_False by by destruct hints.
  fold (page_where hints last_id).
  destruct last_id as [c|]; unfold bind at 1.
  - unfold ret at 1. unfold bind at 1.
    rewrite fetchall_accepted
      by (by apply limit_error_literal || (rewrite page_parameters; lia)).
    unfold bind at 1. rewrite for_each_append. done.
  - unfold bind at 1. rewrite fetchone_count_accepted by (simpl; lia).
    unfold ret at 1. unfold bind at 1.
    rewrite fetchall_accepted
      by (by apply limit_error_literal
          || (rewrite page_parameters; simpl in *; lia)).
    unfold bind at 1. rewrite for_each_append. unfold ret.
    rewrite with_journal_app. done.
Qed.

(** A page size outside the 64-bit range: the statements are sent and the
    page's fails. *)
Lemma get_coin_ids_by_hints_paginated_out_of_range hints page_size last_id db :
  hints ≠ [] →
  ¬ int64 page_size →
  (length hints + match last_id with None => 0 | Some _ => 1 end
   ≤ host_parameter_limit db)%nat →
  get_coin_ids_by_hints_paginated hints page_size last_id db
  = (Raise IntegrityError, with_journal db (page_statements hints page_size last_id)).
Proof.
  intros Hne Hsize Hlim. unfold get_coin_ids_by_hints_paginated.
  rewrite decide_False by by destruct hints.
  fold (page_where hints last_id).
  assert (limit_error (LIMIT_LITERAL page_size) = Some IntegrityError) as Herr
    by (simpl; by rewrite decide_False).
  destruct last_id as [c|]; unfold bind at 1.
  - unfold ret at 1. unfold bind at 1.
    rewrite (fetchall_out_of_range _ _ _ _ IntegrityError)
      by (done || (rewrite page_parameters; lia)).
    done.
  - unfold bind at 1. rewrite fetchone_count_accepted by (simpl; lia).
    unfold ret at 1. unfold bind at 1.
    rewrite (fetchall_out_of_range _ _ _ _ IntegrityError)
      by (done || (rewrite page_parameters; simpl in *; lia)).
    rewrite with_journal_app. done.
Qed.

Lemma get_coin_ids_by_hints_paginated_rejected hints page_size last_id db :
  hints ≠ [] →
  (host_parameter_limit db
   < length hints + match last_id with None => 0 | Some _ => 1 end)%nat →
  ∃ db', get_coin_ids_by_hints_paginated hints page_size last_id db
         = (Raise OperationalError, db').
Proof.
  intros Hne Hlim. unfold get_coin_ids_by_hints_paginated.
  rewrite decide_False by by destruct hints.
  fold (page_where hints last_id).
  destruct last_id as [c|]; unfold bind at 1.
  - unfold ret at 1. unfold bind at 1.
    rewrite fetchall_rejected by (rewrite page_parameters; lia). eauto.
  - unfold bind at 1. unfold fetchone_count, bind at 1.
    rewrite send_rejected by (simpl; lia). eauto.
Qed.

(** ** INSERT OR IGNORE *)

Lemma insert_or_ignore_elem_of table v r :
  r ∈ insert_or_ignore table v ↔ r ∈ table ∨ r = v.
Proof.
  unfold insert_or_ignore. case_decide.
  - split; [by left | by intros [?| ->]].
  - rewrite elem_of_app, list_elem_of_singleton. done.
Qed.

Lemma insert_all_elem_of values table r :
  r ∈ fold_left insert_or_ignore values table ↔ r ∈ table ∨ r ∈ values.
Proof.
  revert table. induction values as [|v values IH]; intros table; simpl.
  - rewrite elem_of_nil. tauto.
  - rewrite IH, insert_or_ignore_elem_of, elem_of_cons. tauto.
Qed.

Lemma insert_all_NoDup values table :
  NoDup table → NoDup (fold_left insert_or_ignore values table).
Proof.
  revert table. induction values as [|v values IH]; intros table Hnd; simpl; [done|].
  apply IH. unfold insert_or_ignore. case_decide; [done|].
  apply NoDup_app. split; [done|]. split; [|apply NoDup_singleton].
  intros x Hx ->%list_elem_of_singleton. done.
Qed.

Lemma insert_all_stored values table :
  values ⊆ table → fold_left insert_or_ignore values table = table.
Proof.
  revert table. induction values as [|v values IH]; intros table Hsub; simpl; [done|].
  assert (insert_or_ignore table v = table) as ->.
  { unfold insert_or_ignore. rewrite decide_True; [done|]. apply Hsub. by left. }
  apply IH. intros x Hx. apply Hsub. by right.
Qed.

Lemma insert_all_keeps_multiplicity values table p :
  p ∈ table →
  filter (λ r, r = p) (fold_left insert_or_ignore values table)
  = filter (λ r, r = p) table.
Proof.
  revert table. induction values as [|v values IH]; intros table Hp; simpl; [done|].
  rewrite IH by (apply insert_or_ignore_elem_of; by left).
  unfold insert_or_ignore. case_decide as Hv; [done|].
  rewrite filter_app, filter_cons_False, filter_nil, app_nil_r; [done|].
  intros ->. done.
Qed.

Lemma insert_all_twice values table :
  fold_left insert_or_ignore values (fold_left insert_or_ignore values table)
  = fold_left insert_or_ignore values table.
Proof.
  apply insert_all_stored. intros r Hr. apply insert_all_elem_of. by right.
Qed.

Lemma add_hints_run coin_hint_list db :
  (2 ≤ host_parameter_limit db)%nat →
  ∃ db', add_hints coin_hint_list db = (Ok tt, db')
    ∧ host_parameter_limit db' = host_parameter_limit db
    ∧ hints_table db'
      = fold_left insert_or_ignore coin_hint_list (hints_table db).
Proof.
  intros Hlim. unfold add_hints. case_decide as Hlen.
  - exists db. destruct coin_hint_list; [done | simpl in Hlen; lia].
  - eexists. unfold executemany_insert_or_ignore, bind.
    rewrite send_accepted by (destruct coin_hint_list; simpl; lia).
    simpl. done.
Qed.

Lemma count_hints_run db :
  count_hints db
  = (Ok (Z.of_nat (length (hints_table db))), with_journal db [SELECT_COUNT None]).
Proof. unfold count_hints. rewrite fetchone_count_accepted; [done | simpl; lia]. Qed.

(** ** The dictionary of [get_hints_for_coin_ids] *)

Lemma for_each_fold {A S} (g : S → A → S) (l : list A) (acc : S) db :
  for_each l (λ x acc, ret (g acc x)) acc db = (Ok (fold_left g l acc), db).
Proof.
  revert acc. induction l as [|x l IH]; intros acc; simpl; [done|].
  unfold bind, ret at 1. by rewrite IH.
Qed.

Lemma dict_of_rows_lookup (rows : list Row) (d0 : gmap bytes bytes) (c : bytes) :
  fold_left (λ d r, <[coin_id r := hint r]> d) rows d0 !! c
  = match last (filter (λ r, coin_id r = c) rows) with
    | Some r => Some (hint r)
    | None => d0 !! c
    end.
Proof.
  induction rows as [|r rows IH] using rev_ind; [done|].
  rewrite fold_left_app, filter_app. simpl.
  destruct (decide (coin_id r = c)) as [<-|Hne].
  - rewrite lookup_insert_eq, filter_cons_True, filter_nil, last_snoc by done. done.
  - rewrite lookup_insert_ne, filter_cons_False, filter_nil, app_nil_r by done. done.
Qed.

Lemma get_hints_for_coin_ids_run coin_ids db :
  coin_ids ≠ [] →
  (length coin_ids ≤ host_parameter_limit db)%nat →
  get_hints_for_coin_ids coin_ids db
  = (Ok (ReturnDict
           (fold_left (λ d r, <[coin_id r := hint r]> d)
              (select_rows_indexed_by sqlite_autoindex_hints_1
                 (CoinIdIn coin_ids) NO_LIMIT (hints_table db)) ∅)),
     with_journal db [SELECT COIN_ID_HINT (CoinIdIn coin_ids) false NO_LIMIT]).
Proof.
  intros Hne Hlim. unfold get_hints_for_coin_ids.
  rewrite decide_False by by destruct coin_ids.
  unfold bind at 1.
  rewrite fetchall_indexed_by_accepted by (done || (simpl; lia)).
  unfold bind at 1.
  rewrite (for_each_fold (λ (d : gmap bytes bytes) r, <[coin_id r := hint r]> d)).
  done.
Qed.

(** The rows of one coin id in the answer: by ascending hint. *)
Lemma autoindex_answer_coin_id coin_ids table c :
  filter (λ r, coin_id r = c)
    (select_rows_indexed_by sqlite_autoindex_hints_1 (CoinIdIn coin_ids) NO_LIMIT table)
  = if decide (c ∈ coin_ids)
    then merge_sort hint_le (filter (λ r, coin_id r = c) table)
    else [].
Proof.
  unfold select_rows_indexed_by. simpl.
  case_decide as Hc.
  - rewrite <- autoindex_scan_coin_id.
    apply list_filter_filter_l. simpl. by intros r ->.
  - apply filter_none. intros r Hr E.
    apply list_elem_of_filter in Hr as [Hr _]. simpl in Hr. by rewrite E in Hr.
Qed.

#[global] Instance hint_le_refl : Reflexive hint_le.
Proof. intros a. unfold hint_le. apply reflexivity. Qed.

(** The last of the rows by ascending hint has the greatest hint. *)
Lemma last_by_hint (l : list Row) :
  match last (merge_sort hint_le l) with
  | Some r => r ∈ l ∧ ∀ r', r' ∈ l → bytes_le (hint r') (hint r)
  | None => l = []
  end.
Proof.
  destruct (last (merge_sort hint_le l)) as [r|] eqn:Hlast.
  - split.
    + apply last_Some_elem_of in Hlast. by rewrite merge_sort_Permutation in Hlast.
    + intros r' Hr'.
      apply (StronglySorted_last_max hint_le (merge_sort hint_le l) r r');
        [apply StronglySorted_merge_sort; apply _ | done |].
      by rewrite merge_sort_Permutation.
  - apply last_None in Hlast. apply Permutation_nil_r.
    rewrite <- Hlast. symmetry. apply merge_sort_Permutation.
Qed.

(** A coin id's entry in the dictionary is its greatest stored hint. *)
Lemma hint_dict_greatest coin_ids table c h :
  fold_left (λ (d : gmap bytes bytes) r, <[coin_id r := hint r]> d)
    (select_rows_indexed_by sqlite_autoindex_hints_1 (CoinIdIn coin_ids) NO_LIMIT table)
    ∅ !! c = Some h
  ↔ c ∈ coin_ids
    ∧ row c h ∈ table
    ∧ ∀ h', row c h' ∈ table → bytes_le h' h.
Proof.
  rewrite dict_of_rows_lookup, lookup_empty, autoindex_answer_coin_id.
  case_decide as Hc; [|simpl; split; [done | by intros [? _]]].
  pose proof (last_by_hint (filter (λ r, coin_id r = c) table)) as Hlast.
  destruct (last _) as [r|].
  - destruct Hlast as [Hr Hmax]. apply list_elem_of_filter in Hr as [Hrc Hr].
    split.
    + intros [= <-]. split; [done|]. split; [by destruct r; simplify_eq/=|].
      intros h' Hh'. apply (Hmax (row c h')). by apply list_elem_of_filter.
    + intros (_ & Hh & Hgreatest). f_equal.
      apply (anti_symm bytes_le).
      * apply Hgreatest. by destruct r; simplify_eq/=.
      * apply (Hmax (row c h)). by apply list_elem_of_filter.
  - split; [done|]. intros (_ & Hh & _).
    assert (Hin : row c h ∈ filter (λ r, coin_id r = c) table)
      by by apply list_elem_of_filter.
    rewrite Hlast in Hin. by apply elem_of_nil in Hin.
Qed.

(** ** The per-chunk cap of [get_coin_ids_multi] *)

Lemma chunk_answer_unfold max_items table b :
  chunk_answer max_items table b
  = coin_id <$> limit_count max_items
                  (filter (satisfies (HintIn (entries b))) (index_scan hint_index table)).
Proof. done. Qed.

(** The scan of the index meets the rows a chunk matches, each once. *)
Lemma chunk_scan_Permutation table b :
  filter (satisfies (HintIn (entries b))) (index_scan hint_index table)
  ≡ₚ chunk_matches table b.
Proof. unfold chunk_matches. by rewrite index_scan_Permutation. Qed.

Lemma chunk_scan_length table b :
  length (filter (satisfies (HintIn (entries b))) (index_scan hint_index table))
  = length (chunk_matches table b).
Proof. by rewrite chunk_scan_Permutation. Qed.

Lemma chunk_answer_length max_items table b :
  0 ≤ max_items → Z.of_nat (length (chunk_answer max_items table b)) ≤ max_items.
Proof.
  intros H. rewrite chunk_answer_unfold, length_fmap.
  by apply limit_count_length.
Qed.

(** ** Union over hints, chunk by chunk *)

(** The rows one hint matches are among those its chunk matches. *)
Lemma hint_matches_le_chunk table (b : Batch bytes) h :
  h ∈ entries b →
  (length (filter (satisfies (HintEq h)) table) ≤ length (chunk_matches table b))%nat.
Proof.
  intros Hh. unfold chunk_matches.
  rewrite <- (list_filter_filter_l (satisfies (HintEq h)) (satisfies (HintIn (entries b)))).
  - apply length_filter.
  - simpl. intros r <-. done.
Qed.

(** What [get_coin_ids_multi] returns when no chunk is truncated. *)
Lemma chunk_answers_Permutation max_items table (batches : list (Batch bytes)) :
  Forall (λ b, max_items < 0
               ∨ Z.of_nat (length (chunk_matches table b)) ≤ max_items) batches →
  NoDup (concat (entries <$> batches)) →
  concat (chunk_answer max_items table <$> batches)
  ≡ₚ concat ((λ h, coin_id <$> filter (satisfies (HintEq h)) table)
               <$> concat (entries <$> batches)).
Proof.
  intros Hcap Hnd. rewrite concat_fmap_concat.
  apply NoDup_concat_parts in Hnd. rewrite Forall_fmap in Hnd.
  induction batches as [|b batches IH]; simpl; [done|].
  apply Forall_cons in Hcap as [Hb Hcap]. apply Forall_cons in Hnd as [Hndb Hnd].
  apply Permutation_app; [|by apply IH].
  rewrite chunk_answer_unfold, limit_count_all by (by rewrite chunk_scan_length).
  rewrite chunk_scan_Permutation.
  unfold chunk_matches. simpl in Hndb.
  rewrite filter_HintIn, (filter_elem_Permutation hint (entries b) table Hndb).
  rewrite concat_fmap_fmap.
  by apply reflexive_eq.
Qed.

Lemma matching_rows_Permutation table (hints : list bytes) :
  NoDup hints →
  concat ((λ h, coin_id <$> filter (satisfies (HintEq h)) table) <$> hints)
  ≡ₚ coin_id <$> filter (satisfies (HintIn hints)) table.
Proof.
  intros Hnd.
  rewrite filter_HintIn, (filter_elem_Permutation hint hints table Hnd).
  rewrite concat_fmap_fmap.
  by apply reflexive_eq.
Qed.

(** ** ORDER BY coin_id *)

Lemma filter_fmap {A B} (f : A → B) (P : B → Prop) `{!∀ y, Decision (P y)}
    (l : list A) :
  f <$> filter (λ x, P (f x)) l = filter P (f <$> l).
Proof.
  induction l as [|x l IH]; [done|]. csimpl.
  rewrite !filter_cons. case_decide; csimpl; by rewrite IH.
Qed.

Lemma fmap_limit_count {A B} (f : A → B) (n : Z) (l : list A) :
  f <$> limit_count n l = limit_count n (f <$> l).
Proof. unfold limit_count. case_decide; [done|]. apply fmap_take. Qed.

Lemma ascending_ids_sorted hints table :
  StronglySorted bytes_le (ascending_ids hints table).
Proof. apply StronglySorted_merge_sort; apply _. Qed.

Lemma ascending_ids_Permutation hints table :
  ascending_ids hints table ≡ₚ matching_ids hints table.
Proof. apply merge_sort_Permutation. Qed.

Lemma after_sorted cursor ids :
  StronglySorted bytes_le ids → StronglySorted bytes_le (after cursor ids).
Proof.
  destruct cursor as [c|]; [|done]. simpl.
  apply StronglySorted_sublist, sublist_filter.
Qed.

Lemma order_by_coin_id (rows : list Row) :
  coin_id <$> merge_sort row_le rows = merge_sort bytes_le (coin_id <$> rows).
Proof.
  apply (Sorted_unique bytes_le).
  - eapply Sorted_fmap; [|apply Sorted_merge_sort, _]. done.
  - apply Sorted_merge_sort, _.
  - by rewrite !merge_sort_Permutation.
Qed.

Lemma merge_sort_filter (P : bytes → Prop) `{!∀ y, Decision (P y)} (ids : list bytes) :
  merge_sort bytes_le (filter P ids) = filter P (merge_sort bytes_le ids).
Proof.
  apply (StronglySorted_unique bytes_le).
  - apply StronglySorted_merge_sort; apply _.
  - eapply StronglySorted_sublist; [apply sublist_filter|].
    apply StronglySorted_merge_sort; apply _.
  - by rewrite !merge_sort_Permutation.
Qed.

(** One page: the first [page_size] of the ascending coin ids after the
    cursor. *)
Lemma page_ids_ascending hints page_size last_id table :
  page_ids hints page_size last_id table
  = limit_count page_size (after last_id (ascending_ids hints table)).
Proof.
  unfold page_ids, select_rows, apply_limit.
  rewrite fmap_limit_count, order_by_coin_id. f_equal.
  destruct last_id as [c|]; [|done]. simpl.
  unfold ascending_ids, matching_ids. rewrite <- merge_sort_filter. f_equal.
  rewrite <- filter_fmap. f_equal.
  rewrite list_filter_filter. apply list_filter_iff. intros r. simpl. tauto.
Qed.

(** ** From one page to the next *)

Lemma after_next cursor ids n x :
  StronglySorted bytes_le ids →
  last (take n (after cursor ids)) = Some x →
  after (Some x) ids = filter (bytes_lt x) (drop n (after cursor ids)).
Proof.
  intros Hs Hx.
  assert (Hin : x ∈ after cursor ids).
  { eapply subseteq_take, last_Some_elem_of, Hx. }
  assert (E : filter (bytes_lt x) ids = filter (bytes_lt x) (after cursor ids)).
  { destruct cursor as [c|]; [|done]. simpl in *.
    apply list_elem_of_filter in Hin as [Hc _].
    symmetry. apply list_filter_filter_l. intros y Hy. by trans x. }
  simpl. rewrite E. rewrite <- (take_drop n (after cursor ids)) at 1.
  rewrite filter_app, filter_none; [done|].
  intros z Hz Hlt. apply bytes_lt_not_le in Hlt. apply Hlt.
  eapply (StronglySorted_last_max bytes_le); [|exact Hx|exact Hz].
  eapply StronglySorted_sublist; [apply sublist_take|]. by apply after_sorted.
Qed.

(** ** What the pages hold *)

Section paged.
Context (n : nat).

Lemma paged_sublist ids pages :
  paged n ids pages → concat pages `sublist_of` ids.
Proof.
  induction 1 as [ids Hlen | ids x pages Hlen Hx _ IH]; simpl.
  - by rewrite app_nil_r.
  - rewrite <- (take_drop n ids) at 2. apply sublist_app; [done|].
    etrans; [exact IH | apply sublist_filter].
Qed.

Lemma paged_complete ids pages y :
  StronglySorted bytes_le ids → paged n ids pages → y ∈ ids → y ∈ concat pages.
Proof.
  intros Hs Hp. revert Hs.
  induction Hp as [ids Hlen | ids x pages Hlen Hx _ IH]; intros Hs Hy; simpl.
  - by rewrite app_nil_r.
  - rewrite <- (take_drop n ids) in Hy, Hs.
    apply elem_of_app. apply elem_of_app in Hy as [Hy|Hy]; [by left|].
    destruct (decide (bytes_lt x y)) as [Hlt|Hnlt].
    + right. apply IH.
      * eapply StronglySorted_sublist; [apply sublist_filter|].
        by apply StronglySorted_app_1_r in Hs.
      * by apply list_elem_of_filter.
    + left. assert (y = x) as ->; [|by eapply last_Some_elem_of].
      apply (anti_symm bytes_le).
      * destruct (decide (bytes_le y x)) as [?|Hn']; [done|].
        by apply bytes_lt_not_le in Hn'.
      * eapply StronglySorted_app_1_elem_of; [exact Hs| |exact Hy].
        by eapply last_Some_elem_of.
Qed.

Lemma paged_NoDup ids pages :
  StronglySorted bytes_le ids → NoDup ids → paged n ids pages →
  concat pages = ids.
Proof.
  intros Hs Hnd Hp. revert Hs Hnd.
  induction Hp as [ids Hlen | ids x pages Hlen Hx _ IH]; intros Hs Hnd; simpl.
  - by rewrite app_nil_r.
  - rewrite <- (take_drop n ids) in Hs, Hnd.
    assert (E : filter (bytes_lt x) (drop n ids) = drop n ids).
    { apply filter_all. intros y Hy.
      assert (Hxin : x ∈ take n ids) by by eapply last_Some_elem_of.
      destruct (bytes_le_lt_or_eq x y) as [?| ->]; [|done|].
      - by eapply StronglySorted_app_1_elem_of.
      - apply NoDup_app in Hnd as (_ & Hdisj & _). by apply Hdisj in Hxin. }
    rewrite E in IH. rewrite IH.
    + apply take_drop.
    + by apply StronglySorted_app_1_r in Hs.
    + by apply NoDup_app in Hnd as (_ & _ & ?).
Qed.

Lemma paged_separated ids pages i j p q x y :
  StronglySorted bytes_le ids → paged n ids pages →
  (i < j)%nat → pages !! i = Some p → pages !! j = Some q →
  x ∈ p → y ∈ q → bytes_lt x y.
Proof.
  intros Hs Hp. revert Hs i j.
  induction Hp as [ids Hlen | ids x0 pages Hlen Hx0 Hp IH]; intros Hs i j Hij Hi Hj Hx Hy.
  - destruct j as [|j]; [lia|]. done.
  - destruct j as [|j]; [lia|]. simpl in Hj.
    assert (Hs' : StronglySorted bytes_le (filter (bytes_lt x0) (drop n ids))).
    { eapply StronglySorted_sublist; [|exact Hs].
      etrans; [apply sublist_filter | apply sublist_drop]. }
    destruct i as [|i]; simpl in Hi.
    + injection Hi as <-.
      assert (Hy' : y ∈ filter (bytes_lt x0) (drop n ids)).
      { eapply elem_of_sublist; [|by apply paged_sublist].
        apply elem_of_concat. exists q. split; [done|].
        by eapply list_elem_of_lookup_2. }
      apply list_elem_of_filter in Hy' as [Hlt _].
      eapply bytes_le_lt_trans; [|exact Hlt].
      eapply (StronglySorted_last_max bytes_le); [|exact Hx0|exact Hx].
      eapply StronglySorted_sublist; [apply sublist_take|done].
    + eapply (IH Hs' i j); [lia|done..].
Qed.
End paged.

Lemma StronglySorted_strict (ids : list bytes) :
  StronglySorted bytes_le ids → NoDup ids → StronglySorted bytes_lt ids.
Proof.
  induction 1 as [|x ids _ IH Hx]; intros Hnd; [constructor|].
  apply NoDup_cons in Hnd as [Hnin Hnd]. constructor; [by apply IH|].
  rewrite Forall_forall in *. intros y Hy.
  destruct (bytes_le_lt_or_eq x y) as [?| ->]; [by apply Hx|done|done].
Qed.

(** ** The caller's loop *)

Lemma limit_count_take {A} (n : Z) (l : list A) :
  0 ≤ n → limit_count n l = take (Z.to_nat n) l.
Proof. intros H. unfold limit_count. by rewrite decide_False by lia. Qed.

Lemma collect_pages_paged hints page_size table limit :
  hints ≠ [] →
  (length hints + 1 ≤ limit)%nat →
  0 < page_size →
  int64 page_size →
  ∀ fuel cursor db,
    hints_table db = table →
    host_parameter_limit db = limit →
    (length (after cursor (ascending_ids hints table)) < fuel)%nat →
    ∃ pages db',
      collect_pages fuel hints page_size cursor db = (Ok (Some pages), db')
      ∧ paged (Z.to_nat page_size) (after cursor (ascending_ids hints table)) pages.
Proof.
  intros Hne Hlim Hsize Hrange.
  pose proof (ascending_ids_sorted hints table) as Hsorted.
  induction fuel as [|fuel IH]; intros cursor db Htable Hlimit Hfuel; [lia|].
  cbn [collect_pages]. unfold bind at 1.
  rewrite get_coin_ids_by_hints_paginated_run
    by (done || (destruct cursor; lia)).
  rewrite Htable, page_ids_ascending.
  set (rest := after cursor (ascending_ids hints table)) in *.
  rewrite !limit_count_take by lia.
  set (n := Z.to_nat page_size).
  destruct (decide (Z.of_nat (length (take n rest)) < page_size)) as [Hshort|Hfull].
  - do 2 eexists. split; [done|].
    rewrite length_take in Hshort.
    rewrite take_ge by lia. apply paged_last. lia.
  - rewrite length_take in Hfull.
    assert (Hlen : (n ≤ length rest)%nat) by lia.
    rewrite decide_True by (rewrite length_take; lia).
    destruct (last (take n rest)) as [x|] eqn:Hx.
    2:{ apply last_None in Hx. apply (f_equal length) in Hx.
        rewrite length_take in Hx. simpl in Hx. lia. }
    pose proof (after_next cursor _ n x Hsorted Hx) as Hnext.
    fold rest in Hnext.
    destruct (IH (Some x)
                (with_journal db (page_statements hints page_size cursor)))
      as (pages & db' & Hrun & Hpaged); [done | done | |].
    { rewrite Hnext.
      pose proof (length_filter (bytes_lt x) (drop n rest)) as Hle.
      rewrite length_drop in Hle. lia. }
    unfold bind at 1. rewrite Hrun.
    do 2 eexists. split; [done|].
    eapply paged_more; [done | exact Hx |]. by rewrite <- Hnext.
Qed.

(** ** The whole result, without a cap *)

Lemma chunk_matches_length table b :
  (length (chunk_matches table b) ≤ length table)%nat.
Proof. apply length_filter. Qed.

Lemma matching_ids_length hints table :
  (length (matching_ids hints table) ≤ length table)%nat.
Proof. unfold matching_ids. rewrite length_fmap. apply length_filter. Qed.

Lemma matching_ids_elem_of hints table c :
  c ∈ matching_ids hints table
  ↔ ∃ r, r ∈ table ∧ hint r ∈ hints ∧ coin_id r = c.
Proof.
  unfold matching_ids. rewrite list_elem_of_fmap. split.
  - intros (r & -> & [Hh Hr]%list_elem_of_filter). by exists r.
  - intros (r & Hr & Hh & <-). exists r. split; [done|].
    by apply list_elem_of_filter.
Qed.

Lemma matching_ids_NoDup hints table :
  NoDup table →
  (∀ r1 r2, r1 ∈ table → r2 ∈ table → hint r1 ∈ hints → hint r2 ∈ hints →
            coin_id r1 = coin_id r2 → hint r1 = hint r2) →
  NoDup (matching_ids hints table).
Proof.
  intros Hnd Hinj. apply NoDup_fmap_2_strong; [|by apply NoDup_filter].
  intros r1 r2 [Hh1 Hr1]%list_elem_of_filter [Hh2 Hr2]%list_elem_of_filter Hc.
  pose proof (Hinj r1 r2 Hr1 Hr2 Hh1 Hh2 Hc) as Hh.
  destruct r1, r2. simpl in *. by subst.
Qed.

Lemma get_coin_ids_multi_untruncated
    SQLITE_MAX_VARIABLE_NUMBER hints max_items db :
  NoDup hints →
  0 < SQLITE_MAX_VARIABLE_NUMBER →
  int64 max_items →
  (Z.to_nat SQLITE_MAX_VARIABLE_NUMBER + 1 ≤ host_parameter_limit db)%nat →
  coin_ids_sized (hints_table db) →
  max_items < 0 ∨ Z.of_nat (length (hints_table db)) ≤ max_items →
  ∃ ids db',
    get_coin_ids_multi SQLITE_MAX_VARIABLE_NUMBER hints max_items db = (Ok ids, db')
    ∧ ids ≡ₚ matching_ids hints (hints_table db).
Proof.
  intros Hnd Hpos Hmax Hlim Hsized Hcap.
  destruct (get_coin_ids_multi_run SQLITE_MAX_VARIABLE_NUMBER hints max_items db)
    as (batches & Hb & Hrun); [done..|].
  destruct (to_batches_ok hints _ Hpos) as (batches' & Hb' & Hcat & _).
  rewrite Hb in Hb'. injection Hb' as <-.
  do 2 eexists. split; [exact Hrun|].
  rewrite chunk_answers_Permutation.
  - rewrite Hcat. by apply matching_rows_Permutation.
  - apply Forall_forall. intros b _. destruct Hcap as [?|Hle]; [by left|].
    right. pose proof (chunk_matches_length (hints_table db) b). lia.
  - by rewrite Hcat.
Qed.

(** ** Counting rows and counting distinct coin ids *)

Lemma remove_dups_length_le {A} `{EqDecision A} (l : list A) :
  (length (remove_dups l) ≤ length l)%nat.
Proof.
  induction l as [|x l IH]; simpl; [done|].
  destruct (decide_rel (∈) x l); simpl; lia.
Qed.

Lemma remove_dups_length_eq_NoDup {A} `{EqDecision A} (l : list A) :
  length (remove_dups l) = length l → NoDup l.
Proof.
  induction l as [|x l IH]; simpl; [constructor|].
  pose proof (remove_dups_length_le l).
  destruct (decide_rel (∈) x l); simpl; [lia|].
  intros [= E]. constructor; [done | by apply IH].
Qed.

Lemma remove_dups_length_equiv {A} `{EqDecision A} (l k : list A) :
  (∀ x, x ∈ l ↔ x ∈ k) → length (remove_dups l) = length (remove_dups k).
Proof.
  intros E. apply Permutation_length, NoDup_Permutation;
    [apply NoDup_remove_dups.. |].
  intros x. by rewrite !elem_of_remove_dups.
Qed.

Lemma NoDup_fmap_elem_inj {A B} (f : A → B) (l : list A) x y :
  NoDup (f <$> l) → x ∈ l → y ∈ l → f x = f y → x = y.
Proof.
  induction l as [|a l IH]; csimpl; intros Hnd Hx Hy E.
  { by apply elem_of_nil in Hx. }
  apply NoDup_cons in Hnd as [Ha Hnd].
  apply elem_of_cons in Hx as [->|Hx]; apply elem_of_cons in Hy as [->|Hy].
  - done.
  - destruct Ha. rewrite E. by apply list_elem_of_fmap_2.
  - destruct Ha. rewrite <- E. by apply list_elem_of_fmap_2.
  - by apply IH.
Qed.

(** * The claims *)

(** C1 (as amended).  Take a non-empty list of distinct hints, a
    [page_size] with [0 < page_size < 2^63], a store whose coin ids are 32
    bytes long, and a backend whose parameter limit admits the hints with
    the cursor, and one parameter more than [SQLITE_MAX_VARIABLE_NUMBER].
    Then the caller's loop terminates, and the concatenation of its pages
    holds exactly the coin ids that [get_coin_ids_multi] returns for a cap
    [max_items] in the 64-bit range that is negative or at least the
    number of stored rows.  The concatenation is in ascending
    byte-lexicographic order, every entry of an earlier page is strictly
    below every entry of a later page, so that no coin id is in two pages,
    and a coin id occurs in it at most as often as in the uncapped result.
    Where no coin id is stored under two of the queried hints, the order
    is strictly ascending and the concatenation is a permutation of the
    uncapped result. *)
Theorem pagination_complete
    SQLITE_MAX_VARIABLE_NUMBER hints page_size max_items fuel db :
  hints ≠ [] →
  NoDup hints →
  0 < page_size < 2 ^ 63 →
  (length hints + 1 ≤ host_parameter_limit db)%nat →
  0 < SQLITE_MAX_VARIABLE_NUMBER →
  (Z.to_nat SQLITE_MAX_VARIABLE_NUMBER + 1 ≤ host_parameter_limit db)%nat →
  coin_ids_sized (hints_table db) →
  - 2 ^ 63 ≤ max_items < 2 ^ 63 →
  max_items < 0 ∨ Z.of_nat (length (hints_table db)) ≤ max_items →
  (length (hints_table db) < fuel)%nat →
  ∃ pages all db1 db2,
    collect_pages fuel hints page_size None db = (Ok (Some pages), db1)
    ∧ get_coin_ids_multi SQLITE_MAX_VARIABLE_NUMBER hints max_items db = (Ok all, db2)
    ∧ (∀ c, c ∈ concat pages ↔ c ∈ all)
    ∧ concat pages ⊆+ all
    ∧ StronglySorted bytes_le (concat pages)
    ∧ (∀ i j p q x y, (i < j)%nat → pages !! i = Some p → pages !! j = Some q →
                      x ∈ p → y ∈ q → bytes_lt x y)
    ∧ (NoDup (hints_table db) →
       (∀ r1 r2, r1 ∈ hints_table db → r2 ∈ hints_table db →
                 hint r1 ∈ hints → hint r2 ∈ hints →
                 coin_id r1 = coin_id r2 → hint r1 = hint r2) →
       StronglySorted bytes_lt (concat pages) ∧ concat pages ≡ₚ all).
Proof.
  intros Hne Hnd Hsize Hlim Hpos Hlim' Hsized Hmax Hcap Hfuel.
  set (table := hints_table db) in *.
  pose proof (ascending_ids_sorted hints table) as Hsorted.
  pose proof (ascending_ids_Permutation hints table) as Hperm.
  destruct (collect_pages_paged hints page_size table (host_parameter_limit db)
              Hne Hlim (proj1 Hsize) (int64_positive _ Hsize) fuel None db)
    as (pages & db1 & Hrun & Hpaged); [done | done | |].
  { simpl. rewrite Hperm. pose proof (matching_ids_length hints table). lia. }
  simpl in Hpaged.
  destruct (get_coin_ids_multi_untruncated SQLITE_MAX_VARIABLE_NUMBER hints max_items db)
    as (all & db2 & Hmulti & Hall); [done..|].
  fold table in Hall.
  exists pages, all, db1, db2.
  split; [done|]. split; [done|]. split; [|split; [|split; [|split]]].
  - intros c. rewrite Hall, <- Hperm. split.
    + intros Hc. eapply elem_of_sublist; [exact Hc|]. by eapply paged_sublist.
    + by eapply paged_complete.
  - rewrite Hall, <- Hperm. apply sublist_submseteq. by eapply paged_sublist.
  - eapply StronglySorted_sublist; [by eapply paged_sublist | done].
  - intros i j p q x y. by eapply paged_separated.
  - intros Hndt Hinj.
    assert (Hnda : NoDup (ascending_ids hints table)).
    { rewrite Hperm. by apply matching_ids_NoDup. }
    rewrite (paged_NoDup _ _ _ Hsorted Hnda Hpaged).
    split; [by apply StronglySorted_strict|]. by rewrite Hall, Hperm.
Qed.

Lemma pagination_complete_witness :
  let limit := 999 in
  let hints := [hint32 1; hint32 2] in
  let db := store 1000 distinct_items in
  hints ≠ []
  ∧ NoDup hints
  ∧ 0 < 2 < 2 ^ 63
  ∧ (length hints + 1 ≤ host_parameter_limit db)%nat
  ∧ 0 < limit
  ∧ (Z.to_nat limit + 1 ≤ host_parameter_limit db)%nat
  ∧ coin_ids_sized (hints_table db)
  ∧ - 2 ^ 63 ≤ -1 < 2 ^ 63
  ∧ (-1 < 0 ∨ Z.of_nat (length (hints_table db)) ≤ -1)
  ∧ (length (hints_table db) < 5)%nat
  ∧ ∃ pages all db1 db2,
      collect_pages 5 hints 2 None db = (Ok (Some pages), db1)
      ∧ get_coin_ids_multi limit hints (-1) db = (Ok all, db2)
      ∧ (∀ c, c ∈ concat pages ↔ c ∈ all)
      ∧ concat pages ⊆+ all
      ∧ StronglySorted bytes_le (concat pages)
      ∧ (∀ i j p q x y, (i < j)%nat → pages !! i = Some p → pages !! j = Some q →
                        x ∈ p → y ∈ q → bytes_lt x y)
      ∧ StronglySorted bytes_lt (concat pages)
      ∧ concat pages ≡ₚ all.
Proof.
  intros limit hints db.
  assert (H1 : hints ≠ []) by done.
  assert (H2 : NoDup hints) by compute_done.
  assert (H3 : 0 < 2 < 2 ^ 63) by lia.
  assert (H4 : (length hints + 1 ≤ host_parameter_limit db)%nat) by (vm_compute; lia).
  assert (H5 : 0 < limit) by (unfold limit; lia).
  assert (H6 : (Z.to_nat limit + 1 ≤ host_parameter_limit db)%nat) by (vm_compute; lia).
  assert (H7 : coin_ids_sized (hints_table db)).
  { unfold coin_ids_sized. simpl. repeat constructor. }
  assert (H8 : - 2 ^ 63 ≤ -1 < 2 ^ 63) by lia.
  assert (H9 : -1 < 0 ∨ Z.of_nat (length (hints_table db)) ≤ -1) by (left; lia).
  assert (H10 : (length (hints_table db) < 5)%nat) by (vm_compute; lia).
  assert (H11 : NoDup (hints_table db)) by compute_done.
  assert (H12 : ∀ r1 r2, r1 ∈ hints_table db → r2 ∈ hints_table db →
                  hint r1 ∈ hints → hint r2 ∈ hints →
                  coin_id r1 = coin_id r2 → hint r1 = hint r2).
  { assert (Hall : Forall (λ r1, Forall (λ r2, coin_id r1 = coin_id r2 → hint r1 = hint r2)
                                    (hints_table db)) (hints_table db))
      by compute_done.
    intros r1 r2 Hr1 Hr2 _ _.
    rewrite Forall_forall in Hall. specialize (Hall r1 Hr1).
    rewrite Forall_forall in Hall. exact (Hall r2 Hr2). }
  split; [exact H1|]. split; [exact H2|]. split; [exact H3|].
  split; [exact H4|]. split; [exact H5|]. split; [exact H6|].
  split; [exact H7|]. split; [exact H8|]. split; [exact H9|]. split; [exact H10|].
  destruct (pagination_complete limit hints 2 (-1) 5 db H1 H2 H3 H4 H5 H6 H7 H8 H9 H10)
    as (pages & all & db1 & db2 & Hpages & Hall & Hsame & Hmost & Hsorted & Hapart & Hstrict).
  exists pages, all, db1, db2.
  split; [exact Hpages|]. split; [exact Hall|]. split; [exact Hsame|].
  split; [exact Hmost|]. split; [exact Hsorted|]. split; [exact Hapart|].
  exact (Hstrict H11 H12).
Defined.

(** The pages of the three-item store, whose second item is stored under
    both hints.  That item's coin id comes once with two entries a page,
    where its second row is passed over by the cursor, and twice with three
    entries a page. *)
Example pagination_three_items :
  let db := store 1000 three_items in
  fst (collect_pages 5 [hint32 1; hint32 2] 2 None db)
  = Ok (Some [[id32 1; id32 2]; [id32 3]])
  ∧ fst (collect_pages 5 [hint32 1; hint32 2] 3 None db)
    = Ok (Some [[id32 1; id32 2; id32 2]; [id32 3]]).
Proof. vm_compute. done. Qed.

(** C1, as stated, fails: with an item stored under two of the queried
    hints the concatenated pages repeat its coin id, so they are not
    strictly ascending. *)
Lemma pagination_repeats_item :
  fst (collect_pages 3 [hint32 1; hint32 2] 5 None (store 10 two_hints_one_item))
  = Ok (Some [[id32 1; id32 1]])
  ∧ ¬ StronglySorted bytes_lt (concat [[id32 1; id32 1]])
  ∧ ¬ NoDup (concat [[id32 1; id32 1]]).
Proof.
  split; [vm_compute; done|]. split.
  - simpl. intros [_ Hx]%StronglySorted_inv.
    apply Forall_cons in Hx as [Hx _]. by apply (irreflexivity bytes_lt) in Hx.
  - simpl. intros [Hin _]%NoDup_cons. apply Hin. by left.
Qed.

(** C2.  [get_coin_ids_by_hints] does not partition its hints: for a
    non-empty list it sends exactly one statement, which binds every hint.
    Within the backend's parameter limit the call returns the coin ids of
    all matching rows; when the hints outnumber the limit the statement is
    rejected and the call raises instead of returning them. *)
Theorem get_coin_ids_by_hints_sends_one_statement hints db :
  hints ≠ [] →
  snd (get_coin_ids_by_hints hints db)
  = with_journal db [SELECT COIN_ID (HintIn hints) false NO_LIMIT]
  ∧ ((host_parameter_limit db < length hints)%nat →
     fst (get_coin_ids_by_hints hints db) = Raise OperationalError)
  ∧ ((length hints ≤ host_parameter_limit db)%nat →
     fst (get_coin_ids_by_hints hints db)
     = Ok (matching_ids hints (hints_table db))).
Proof.
  intros Hne.
  destruct (decide (length hints ≤ host_parameter_limit db)%nat) as [Hlim|Hlim].
  - rewrite get_coin_ids_by_hints_run by done. simpl.
    split; [done|]. split; [lia | done].
  - unfold get_coin_ids_by_hints.
    rewrite decide_False by by destruct hints.
    unfold bind. rewrite fetchall_rejected by (simpl; lia). simpl.
    split; [done|]. split; [done | lia].
Qed.

Lemma get_coin_ids_by_hints_sends_one_statement_witness :
  hints5000 ≠ []
  ∧ (host_parameter_limit (store 999 rows5000) < length hints5000)%nat
  ∧ get_coin_ids_by_hints hints5000 (store 999 rows5000)
    = (Raise OperationalError,
       with_journal (store 999 rows5000)
         [SELECT COIN_ID (HintIn hints5000) false NO_LIMIT]).
Proof.
  assert (H1 : hints5000 ≠ []) by done.
  assert (H2 : (host_parameter_limit (store 999 rows5000) < length hints5000)%nat)
    by (vm_compute; lia).
  split; [exact H1|]. split; [exact H2|].
  destruct (get_coin_ids_by_hints_sends_one_statement hints5000 (store 999 rows5000) H1)
    as (Hsent & Hrejected & _).
  rewrite (surjective_pairing (get_coin_ids_by_hints _ _)).
  by rewrite Hsent, (Hrejected H2).
Defined.

(** Three hints against a backend that binds at most two parameters:
    [get_coin_ids_by_hints] is rejected, [get_coin_ids_multi], which
    chunks, answers. *)
Example get_coin_ids_multi_chunks_instead :
  let hints := [hint32 1; hint32 2; hint32 3] in
  let db := store 2 three_items in
  fst (get_coin_ids_by_hints hints db) = Raise OperationalError
  ∧ length (journal (snd (get_coin_ids_by_hints hints db))) = 1%nat
  ∧ (∃ ids, fst (get_coin_ids_multi 1 hints (-1) db) = Ok ids
            ∧ ids ≡ₚ matching_ids hints three_items)
  ∧ length (journal (snd (get_coin_ids_multi 1 hints (-1) db))) = 3%nat.
Proof.
  split; [vm_compute; done|]. split; [vm_compute; done|].
  split; [|vm_compute; done].
  eexists. split; [vm_compute; done|]. compute_done.
Qed.

(** C3 (as amended).  For a non-empty list of coin ids that fits the
    backend's parameter limit, [get_hints_for_coin_ids] returns a
    dictionary that maps each requested coin id with a stored hint to the
    hint of the last row fetched for that coin id, later rows overwriting
    earlier ones.  The rows are fetched in the order of the unique index on
    (coin_id, hint), so that this hint is the greatest, in
    byte-lexicographic order, of the hints stored for the coin id.  No
    length filter is applied: every requested coin id that has a stored
    row is a key, whatever the length of its hints. *)
Theorem get_hints_for_coin_ids_last_seen coin_ids db :
  coin_ids ≠ [] →
  (length coin_ids ≤ host_parameter_limit db)%nat →
  ∃ d db',
    get_hints_for_coin_ids coin_ids db = (Ok (ReturnDict d), db')
    ∧ (∀ c, d !! c
            = hint <$> last (filter (λ r, coin_id r = c)
                               (select_rows_indexed_by sqlite_autoindex_hints_1
                                  (CoinIdIn coin_ids) NO_LIMIT (hints_table db))))
    ∧ (∀ c h, d !! c = Some h
              ↔ c ∈ coin_ids
                ∧ row c h ∈ hints_table db
                ∧ ∀ h', row c h' ∈ hints_table db → bytes_le h' h)
    ∧ (∀ r, r ∈ hints_table db → coin_id r ∈ coin_ids →
            is_Some (d !! coin_id r)).
Proof.
  intros Hne Hlim. do 2 eexists.
  split; [by apply get_hints_for_coin_ids_run|].
  set (rows := select_rows_indexed_by sqlite_autoindex_hints_1
                 (CoinIdIn coin_ids) NO_LIMIT (hints_table db)).
  assert (Hlookup : ∀ c,
    fold_left (λ (d : gmap bytes bytes) r, <[coin_id r := hint r]> d) rows ∅ !! c
    = hint <$> last (filter (λ r, coin_id r = c) rows)).
  { intros c. rewrite dict_of_rows_lookup, lookup_empty.
    by destruct (last _). }
  split; [exact Hlookup|]. split.
  - intros c h. apply hint_dict_greatest.
  - intros r Hr Hc. rewrite Hlookup. unfold rows.
    rewrite autoindex_answer_coin_id, decide_True by done.
    pose proof (last_by_hint (filter (λ r', coin_id r' = coin_id r) (hints_table db)))
      as Hlast.
    destruct (last _) as [r'|]; [by eexists|].
    assert (Hin : r ∈ filter (λ r', coin_id r' = coin_id r) (hints_table db))
      by by apply list_elem_of_filter.
    rewrite Hlast in Hin. by apply elem_of_nil in Hin.
Qed.

Lemma get_hints_for_coin_ids_last_seen_witness :
  let coin_ids := [id32 2; id32 3] in
  let db := store 10 three_items in
  coin_ids ≠ []
  ∧ (length coin_ids ≤ host_parameter_limit db)%nat
  ∧ ∃ d db',
      get_hints_for_coin_ids coin_ids db = (Ok (ReturnDict d), db')
      ∧ (∀ c, d !! c
              = hint <$> last (filter (λ r, coin_id r = c)
                                 (select_rows_indexed_by sqlite_autoindex_hints_1
                                    (CoinIdIn coin_ids) NO_LIMIT (hints_table db))))
      ∧ (∀ c h, d !! c = Some h
                ↔ c ∈ coin_ids
                  ∧ row c h ∈ hints_table db
                  ∧ ∀ h', row c h' ∈ hints_table db → bytes_le h' h)
      ∧ (∀ r, r ∈ hints_table db → coin_id r ∈ coin_ids →
              is_Some (d !! coin_id r)).
Proof.
  intros coin_ids db.
  assert (H1 : coin_ids ≠ []) by done.
  assert (H2 : (length coin_ids ≤ host_parameter_limit db)%nat) by (vm_compute; lia).
  split; [exact H1|]. split; [exact H2|].
  exact (get_hints_for_coin_ids_last_seen coin_ids db H1 H2).
Defined.

(** C3, as stated, fails: a stored 10-byte hint is a value of the
    returned dictionary. *)
Lemma get_hints_for_coin_ids_keeps_short_hint :
  ∃ d,
    fst (get_hints_for_coin_ids [id32 1] (store 10 [row (id32 1) hint10]))
    = Ok (ReturnDict d)
    ∧ d !! id32 1 = Some hint10
    ∧ length hint10 ≠ 32%nat.
Proof.
  eexists. split; [|split].
  - rewrite get_hints_for_coin_ids_run by (done || (vm_compute; lia)). simpl. done.
  - vm_compute. done.
  - vm_compute. lia.
Qed.

(** The item stored under two hints keeps only the greater of them,
    whichever was stored first. *)
Example get_hints_for_coin_ids_overwrites :
  ∃ d1 d2,
    fst (get_hints_for_coin_ids [id32 1]
           (store 10 [row (id32 1) (hint32 1); row (id32 1) (hint32 2)]))
    = Ok (ReturnDict d1)
    ∧ d1 !! id32 1 = Some (hint32 2)
    ∧ fst (get_hints_for_coin_ids [id32 1]
             (store 10 [row (id32 1) (hint32 2); row (id32 1) (hint32 1)]))
      = Ok (ReturnDict d2)
    ∧ d2 !! id32 1 = Some (hint32 2).
Proof.
  do 2 eexists. split; [|split; [|split]].
  - rewrite get_hints_for_coin_ids_run by (done || (vm_compute; lia)). simpl. done.
  - vm_compute. done.
  - rewrite get_hints_for_coin_ids_run by (done || (vm_compute; lia)). simpl. done.
  - vm_compute. done.
Qed.

(** Above the backend's parameter limit the statement is rejected and the
    call raises. *)
Example get_hints_for_coin_ids_above_the_limit :
  fst (get_hints_for_coin_ids [id32 1; id32 2; id32 3] (store 2 three_items))
  = Raise OperationalError.
Proof. vm_compute. done. Qed.

(** C4 (as amended).  Take a non-empty set of hints, a cap with
    [0 <= max_items < 2^63], a store whose coin ids are 32 bytes long, and
    a backend that binds one parameter more than
    [SQLITE_MAX_VARIABLE_NUMBER].  Then [get_coin_ids_multi] sends one
    statement per chunk, each with [LIMIT max_items]; each chunk answers
    the first [max_items] of its matching rows in the order of
    [hint_index], or all of them when they are fewer, so at most
    [max_items] rows, and the returned list, the concatenation of the
    chunks' answers, has at most [max_items + (chunk_count - 1) * max_items]
    entries: the cap is per chunk, not global. *)
Theorem get_coin_ids_multi_caps_each_chunk
    SQLITE_MAX_VARIABLE_NUMBER hints max_items db :
  hints ≠ [] →
  0 ≤ max_items < 2 ^ 63 →
  0 < SQLITE_MAX_VARIABLE_NUMBER →
  (Z.to_nat SQLITE_MAX_VARIABLE_NUMBER + 1 ≤ host_parameter_limit db)%nat →
  coin_ids_sized (hints_table db) →
  ∃ batches db',
    to_batches hints SQLITE_MAX_VARIABLE_NUMBER = Ok batches
    ∧ batches ≠ []
    ∧ get_coin_ids_multi SQLITE_MAX_VARIABLE_NUMBER hints max_items db
      = (Ok (concat (chunk_answer max_items (hints_table db) <$> batches)), db')
    ∧ journal db' = journal db ++ (chunk_statement max_items <$> batches)
    ∧ Forall (λ b,
        chunk_answer max_items (hints_table db) b
        = coin_id <$> take (Z.to_nat max_items)
                        (filter (λ r, hint r ∈ entries b)
                           (index_scan hint_index (hints_table db)))
        ∧ chunk_answer max_items (hints_table db) b
          ⊆+ coin_id <$> chunk_matches (hints_table db) b
        ∧ length (chunk_answer max_items (hints_table db) b)
          = (Z.to_nat max_items `min` length (chunk_matches (hints_table db) b))%nat
        ∧ Z.of_nat (length (chunk_answer max_items (hints_table db) b)) ≤ max_items)
        batches
    ∧ Z.of_nat (length (concat (chunk_answer max_items (hints_table db) <$> batches)))
      ≤ max_items + (Z.of_nat (length batches) - 1) * max_items.
Proof.
  intros Hne Hcap Hpos Hlim Hsized.
  destruct (get_coin_ids_multi_run SQLITE_MAX_VARIABLE_NUMBER hints max_items db)
    as (batches & Hb & Hrun); [done | by apply int64_nonnegative | done..|].
  exists batches, (with_journal db (chunk_statement max_items <$> batches)).
  split; [done|]. split; [by eapply to_batches_nonempty|].
  split; [done|]. split; [done|]. split.
  - apply Forall_forall. intros b _.
    split; [|split; [|split; [|apply chunk_answer_length; lia]]].
    + rewrite chunk_answer_unfold, limit_count_take, filter_HintIn by lia. done.
    + rewrite chunk_answer_unfold, <- chunk_scan_Permutation.
      apply fmap_submseteq, sublist_submseteq, limit_count_sublist.
    + rewrite chunk_answer_unfold, length_fmap, limit_count_take, length_take by lia.
      by rewrite chunk_scan_length.
  - assert (length (concat (chunk_answer max_items (hints_table db) <$> batches))
            ≤ length (chunk_answer max_items (hints_table db) <$> batches)
              * Z.to_nat max_items)%nat as Hlen.
    { apply length_concat_le, Forall_fmap, Forall_forall. intros b _. simpl.
      pose proof (chunk_answer_length max_items (hints_table db) b (proj1 Hcap)). lia. }
    rewrite length_fmap in Hlen. nia.
Qed.

Lemma get_coin_ids_multi_caps_each_chunk_witness :
  let limit := 1 in
  let hints := [hint32 1; hint32 2] in
  let db := store 2 three_items in
  hints ≠ []
  ∧ 0 ≤ 1 < 2 ^ 63
  ∧ 0 < limit
  ∧ (Z.to_nat limit + 1 ≤ host_parameter_limit db)%nat
  ∧ coin_ids_sized (hints_table db)
  ∧ ∃ batches db',
      to_batches hints limit = Ok batches
      ∧ batches ≠ []
      ∧ get_coin_ids_multi limit hints 1 db
        = (Ok (concat (chunk_answer 1 (hints_table db) <$> batches)), db')
      ∧ journal db' = journal db ++ (chunk_statement 1 <$> batches)
      ∧ Forall (λ b,
          chunk_answer 1 (hints_table db) b
          = coin_id <$> take (Z.to_nat 1)
                          (filter (λ r, hint r ∈ entries b)
                             (index_scan hint_index (hints_table db)))
          ∧ chunk_answer 1 (hints_table db) b
            ⊆+ coin_id <$> chunk_matches (hints_table db) b
          ∧ length (chunk_answer 1 (hints_table db) b)
            = (Z.to_nat 1 `min` length (chunk_matches (hints_table db) b))%nat
          ∧ Z.of_nat (length (chunk_answer 1 (hints_table db) b)) ≤ 1)
          batches
      ∧ Z.of_nat (length (concat (chunk_answer 1 (hints_table db) <$> batches)))
        ≤ 1 + (Z.of_nat (length batches) - 1) * 1.
Proof.
  intros limit hints db.
  assert (H1 : hints ≠ []) by done.
  assert (H2 : 0 ≤ 1 < 2 ^ 63) by lia.
  assert (H3 : 0 < limit) by (unfold limit; lia).
  assert (H4 : (Z.to_nat limit + 1 ≤ host_parameter_limit db)%nat) by (vm_compute; lia).
  assert (H5 : coin_ids_sized (hints_table db)).
  { unfold coin_ids_sized. simpl. repeat constructor. }
  split; [exact H1|]. split; [exact H2|]. split; [exact H3|].
  split; [exact H4|]. split; [exact H5|].
  exact (get_coin_ids_multi_caps_each_chunk limit hints 1 db H1 H2 H3 H4 H5).
Defined.

(** C4, as stated for every [max_items], fails at a negative one: the
    backend reads a negative LIMIT as no limit, and the single chunk
    answers two rows. *)
Lemma get_coin_ids_multi_negative_cap :
  ∃ batch,
    to_batches [hint32 1] 1 = Ok [batch]
    ∧ fst (get_coin_ids_multi 1 [hint32 1] (-1) (store 2 three_items))
      = Ok (chunk_answer (-1) three_items batch)
    ∧ ¬ (Z.of_nat (length (chunk_answer (-1) three_items batch)) ≤ -1).
Proof.
  eexists. split; [vm_compute; done|]. split; [vm_compute; done|].
  vm_compute. done.
Qed.

(** The bound is reached: two chunks capped at one row each return two
    coin ids. *)
Example get_coin_ids_multi_exceeds_cap :
  ∃ ids,
    fst (get_coin_ids_multi 1 [hint32 1; hint32 2] 1 (store 2 three_items)) = Ok ids
    ∧ Z.of_nat (length ids) = 1 + (2 - 1) * 1.
Proof. eexists. split; [vm_compute; done|]. done. Qed.

(** One chunk of two hints capped at two rows: the rows come by hint, so
    both are rows of the smaller hint, the first and the fourth stored. *)
Example get_coin_ids_multi_answers_in_index_order :
  fst (get_coin_ids_multi 2 [hint32 2; hint32 1] 2 (store 3 three_items))
  = Ok [id32 2; id32 3].
Proof. vm_compute. done. Qed.

(** A cap that is no 64-bit integer cannot be bound: the call raises. *)
Example get_coin_ids_multi_cap_out_of_range :
  fst (get_coin_ids_multi 1 [hint32 1] (2 ^ 63) (store 2 three_items))
  = Raise OverflowError.
Proof. vm_compute. done. Qed.

(** C5 (as amended).  Take a set of distinct hints, of whatever size
    against the backend's parameter limit, a store whose coin ids are 32
    bytes long, a backend that binds one parameter more than
    [SQLITE_MAX_VARIABLE_NUMBER], and a cap in the 64-bit range that
    truncates no chunk: one that is negative, or at least the number of
    rows each chunk matches.  Then [get_coin_ids_multi] returns, up to
    order, the concatenation of the single-hint lookups [get_coin_ids] of
    its hints: no matching coin id is omitted, and a coin id occurs once
    per queried hint it is stored under.  The list is free of duplicates
    when no coin id is stored under two of the queried hints; no statement
    removes duplicates otherwise. *)
Theorem get_coin_ids_multi_union
    SQLITE_MAX_VARIABLE_NUMBER hints max_items db batches :
  NoDup hints →
  0 < SQLITE_MAX_VARIABLE_NUMBER →
  (Z.to_nat SQLITE_MAX_VARIABLE_NUMBER + 1 ≤ host_parameter_limit db)%nat →
  coin_ids_sized (hints_table db) →
  - 2 ^ 63 ≤ max_items < 2 ^ 63 →
  to_batches hints SQLITE_MAX_VARIABLE_NUMBER = Ok batches →
  Forall (λ b, max_items < 0
               ∨ Z.of_nat (length (chunk_matches (hints_table db) b)) ≤ max_items)
    batches →
  ∃ ids lookups db',
    get_coin_ids_multi SQLITE_MAX_VARIABLE_NUMBER hints max_items db = (Ok ids, db')
    ∧ Forall2 (λ h l, fst (get_coin_ids h max_items db) = Ok l) hints lookups
    ∧ ids ≡ₚ concat lookups
    ∧ (∀ r, r ∈ hints_table db → hint r ∈ hints → coin_id r ∈ ids)
    ∧ (NoDup (hints_table db) →
       (∀ r1 r2, r1 ∈ hints_table db → r2 ∈ hints_table db →
                 hint r1 ∈ hints → hint r2 ∈ hints →
                 coin_id r1 = coin_id r2 → hint r1 = hint r2) →
       NoDup ids).
Proof.
  intros Hnd Hpos Hlim Hsized Hmax Hb Hcap.
  destruct (get_coin_ids_multi_run SQLITE_MAX_VARIABLE_NUMBER hints max_items db)
    as (batches' & Hb' & Hrun); [done..|].
  rewrite Hb in Hb'. injection Hb' as <-.
  destruct (to_batches_ok hints _ Hpos) as (batches' & Hb' & Hcat & _).
  rewrite Hb in Hb'. injection Hb' as <-.
  set (table := hints_table db) in *.
  set (lookup := λ h, coin_id <$> filter (satisfies (HintEq h)) table).
  assert (Hperm : concat (chunk_answer max_items table <$> batches)
                  ≡ₚ concat (lookup <$> hints)).
  { rewrite <- Hcat. apply chunk_answers_Permutation; [done | by rewrite Hcat]. }
  assert (Hrows : concat (chunk_answer max_items table <$> batches)
                  ≡ₚ coin_id <$> filter (satisfies (HintIn hints)) table).
  { rewrite Hperm. by apply matching_rows_Permutation. }
  exists (concat (chunk_answer max_items table <$> batches)), (lookup <$> hints).
  eexists. split; [exact Hrun|]. split; [|split; [exact Hperm|split]].
  - apply Forall2_fmap_r, Forall_Forall2_diag, Forall_forall. intros h Hh.
    rewrite get_coin_ids_run by (done || lia). simpl. f_equal.
    unfold lookup, select_rows, apply_limit. f_equal.
    apply limit_count_all.
    rewrite <- Hcat in Hh. apply elem_of_concat in Hh as (part & Hh & Hpart).
    apply list_elem_of_fmap in Hpart as (b & -> & Hbin).
    rewrite Forall_forall in Hcap. destruct (Hcap b Hbin) as [?|Hle]; [by left|].
    right. pose proof (hint_matches_le_chunk table b h Hh). fold table. lia.
  - intros r Hr Hh. rewrite Hrows. apply list_elem_of_fmap_2.
    apply list_elem_of_filter. done.
  - intros Hndt Hinj. rewrite Hrows.
    apply NoDup_fmap_2_strong; [|by apply NoDup_filter].
    intros r1 r2 [Hh1 Hr1]%list_elem_of_filter [Hh2 Hr2]%list_elem_of_filter Hc.
    pose proof (Hinj r1 r2 Hr1 Hr2 Hh1 Hh2 Hc) as Hh.
    destruct r1, r2. simpl in *. by subst.
Qed.

Lemma get_coin_ids_multi_union_witness :
  let limit := 1 in
  let hints := [hint32 1; hint32 2; hint32 3] in
  let db := store 2 distinct_items in
  let batches := [{| entries := [hint32 1] |}; {| entries := [hint32 2] |};
                  {| entries := [hint32 3] |}] in
  (host_parameter_limit db < length hints)%nat
  ∧ NoDup hints
  ∧ 0 < limit
  ∧ (Z.to_nat limit + 1 ≤ host_parameter_limit db)%nat
  ∧ coin_ids_sized (hints_table db)
  ∧ - 2 ^ 63 ≤ 5 < 2 ^ 63
  ∧ to_batches hints limit = Ok batches
  ∧ Forall (λ b, 5 < 0 ∨ Z.of_nat (length (chunk_matches (hints_table db) b)) ≤ 5)
      batches
  ∧ ∃ ids lookups db',
      get_coin_ids_multi limit hints 5 db = (Ok ids, db')
      ∧ Forall2 (λ h l, fst (get_coin_ids h 5 db) = Ok l) hints lookups
      ∧ ids ≡ₚ concat lookups
      ∧ (∀ r, r ∈ hints_table db → hint r ∈ hints → coin_id r ∈ ids)
      ∧ NoDup ids.
Proof.
  intros limit hints db batches.
  assert (H0 : (host_parameter_limit db < length hints)%nat) by (vm_compute; lia).
  assert (H1 : NoDup hints) by compute_done.
  assert (H2 : 0 < limit) by (unfold limit; lia).
  assert (H3 : (Z.to_nat limit + 1 ≤ host_parameter_limit db)%nat) by (vm_compute; lia).
  assert (H4 : coin_ids_sized (hints_table db)).
  { unfold coin_ids_sized. simpl. repeat constructor. }
  assert (H5 : - 2 ^ 63 ≤ 5 < 2 ^ 63) by lia.
  assert (H6 : to_batches hints limit = Ok batches) by (vm_compute; done).
  assert (H7 : Forall (λ b, 5 < 0
                 ∨ Z.of_nat (length (chunk_matches (hints_table db) b)) ≤ 5) batches).
  { constructor; [right; vm_compute; done|].
    constructor; [right; vm_compute; done|].
    constructor; [right; vm_compute; done|]. constructor. }
  assert (H8 : NoDup (hints_table db)) by compute_done.
  assert (H9 : ∀ r1 r2, r1 ∈ hints_table db → r2 ∈ hints_table db →
                 hint r1 ∈ hints → hint r2 ∈ hints →
                 coin_id r1 = coin_id r2 → hint r1 = hint r2).
  { assert (Hall : Forall (λ r1, Forall (λ r2, coin_id r1 = coin_id r2 → hint r1 = hint r2)
                                    (hints_table db)) (hints_table db))
      by compute_done.
    intros r1 r2 Hr1 Hr2 _ _.
    rewrite Forall_forall in Hall. specialize (Hall r1 Hr1).
    rewrite Forall_forall in Hall. exact (Hall r2 Hr2). }
  split; [exact H0|]. split; [exact H1|]. split; [exact H2|]. split; [exact H3|].
  split; [exact H4|]. split; [exact H5|]. split; [exact H6|]. split; [exact H7|].
  destruct (get_coin_ids_multi_union limit hints 5 db batches H1 H2 H3 H4 H5 H6 H7)
    as (ids & lookups & db' & Hrun & Hlookups & Hperm & Hall & Hnodup).
  exists ids, lookups, db'.
  split; [exact Hrun|]. split; [exact Hlookups|]. split; [exact Hperm|].
  split; [exact Hall|]. exact (Hnodup H8 H9).
Defined.

(** C5, as stated, fails: with three hints against a backend that binds
    two parameters, an item stored under two of the hints is returned
    twice, while each single-hint lookup returns it once. *)
Lemma get_coin_ids_multi_returns_duplicates :
  let hints := [hint32 1; hint32 2; hint32 3] in
  let db := store 2 two_hints_one_item in
  (host_parameter_limit db < length hints)%nat
  ∧ fst (get_coin_ids (hint32 1) 5 db) = Ok [id32 1]
  ∧ fst (get_coin_ids (hint32 2) 5 db) = Ok [id32 1]
  ∧ fst (get_coin_ids (hint32 3) 5 db) = Ok []
  ∧ fst (get_coin_ids_multi 1 hints 5 db) = Ok [id32 1; id32 1]
  ∧ ¬ NoDup [id32 1; id32 1].
Proof.
  split; [vm_compute; lia|].
  split; [vm_compute; done|]. split; [vm_compute; done|].
  split; [vm_compute; done|]. split; [vm_compute; done|].
  intros [Hin _]%NoDup_cons. apply Hin. by left.
Qed.

(** C6.  With an empty list of hints the paginated query sends no statement
    and returns at once, for every page size and every cursor; the value
    it returns is the bare empty list of line 63, not the triple
    (empty list, no cursor, no count) that the method's return annotation
    declares and that the caller unpacks. *)
Theorem paginated_empty_hints_returns_bare_list page_size last_id db :
  get_coin_ids_by_hints_paginated [] page_size last_id db = (Ok (ReturnList []), db)
  ∧ ∀ coin_ids next_last_id total_coin_count,
      fst (get_coin_ids_by_hints_paginated [] page_size last_id db)
      ≠ Ok (ReturnTuple coin_ids next_last_id total_coin_count).
Proof. split; [done|]. intros ???. simpl. discriminate. Qed.

(** C7.  [get_hints] returns, for every list of coin ids, only hints of
    exactly 32 bytes: a stored hint of any other length is absent from the
    result while every 32-byte hint of a requested coin id is present, and
    [count_hints] counts every row of the table whatever its hint.  After
    one record with a 10-byte hint is inserted into an empty table,
    [get_hints] on its coin id returns the empty list and [count_hints]
    returns 1. *)
Theorem get_hints_drops_unsized_hints SQLITE_MAX_VARIABLE_NUMBER coin_ids db :
  0 < SQLITE_MAX_VARIABLE_NUMBER →
  (Z.to_nat SQLITE_MAX_VARIABLE_NUMBER ≤ host_parameter_limit db)%nat →
  (2 ≤ host_parameter_limit db)%nat →
  (∃ hints db',
     get_hints SQLITE_MAX_VARIABLE_NUMBER coin_ids db = (Ok hints, db')
     ∧ Forall (λ h, length h = 32%nat) hints
     ∧ (∀ r, r ∈ hints_table db → length (hint r) ≠ 32%nat → hint r ∉ hints)
     ∧ (∀ r, r ∈ hints_table db → coin_id r ∈ coin_ids →
             length (hint r) = 32%nat → hint r ∈ hints)
     ∧ fst (count_hints db') = Ok (Z.of_nat (length (hints_table db))))
  ∧ (∀ id2 h, length h = 10%nat →
       ∃ db1, add_hints [row id2 h] (with_table db []) = (Ok tt, db1)
         ∧ fst (get_hints SQLITE_MAX_VARIABLE_NUMBER [id2] db1) = Ok []
         ∧ fst (count_hints db1) = Ok 1).
Proof.
  intros Hpos Hlim Hlim2.
  assert (Hall : ∀ ids db0,
    host_parameter_limit db0 = host_parameter_limit db →
    ∃ hints db', get_hints SQLITE_MAX_VARIABLE_NUMBER ids db0 = (Ok hints, db')
      ∧ hints_table db' = hints_table db0
      ∧ Forall (λ h, length h = 32%nat) hints
      ∧ (∀ r, r ∈ hints_table db0 → coin_id r ∈ ids →
              length (hint r) = 32%nat → hint r ∈ hints)).
  { intros ids db0 Hdb0.
    destruct (get_hints_run SQLITE_MAX_VARIABLE_NUMBER ids db0) as (batches & Hb & Hrun);
      [done | lia |].
    destruct (to_batches_ok ids _ Hpos) as (batches' & Hb' & Hcat & _).
    rewrite Hb in Hb'. injection Hb' as <-.
    do 2 eexists. split; [exact Hrun|]. split; [done|]. split.
    - apply Forall_forall. intros h Hh.
      apply elem_of_concat in Hh as (part & Hh & Hpart).
      apply list_elem_of_fmap in Hpart as (b & -> & _).
      unfold hints_answer in Hh.
      apply list_elem_of_fmap in Hh as (r & -> & Hr).
      by apply list_elem_of_filter in Hr as [? _].
    - intros r Hr Hid Hlen.
      rewrite <- Hcat in Hid.
      apply elem_of_concat in Hid as (part & Hid & Hpart).
      apply list_elem_of_fmap in Hpart as (b & -> & Hb').
      apply elem_of_concat. exists (hints_answer (hints_table db0) b).
      split; [|by apply list_elem_of_fmap_2].
      unfold hints_answer. apply list_elem_of_fmap_2.
      apply list_elem_of_filter. split; [done|].
      unfold select_rows. simpl. by apply list_elem_of_filter. }
  split.
  - destruct (Hall coin_ids db eq_refl) as (hints & db' & Hrun & Htable & Hsized & Hin).
    exists hints, db'. split; [done|]. split; [done|]. split; [|split; [done|]].
    + intros r _ Hlen Hr. rewrite Forall_forall in Hsized.
      by apply Hsized in Hr.
    + rewrite count_hints_run. simpl. by rewrite Htable.
  - intros id2 h Hlen.
    destruct (add_hints_run [row id2 h] (with_table db [])) as (db1 & Hadd & Hl1 & Ht1);
      [done|].
    exists db1. split; [done|]. simpl in Ht1.
    split; [|by rewrite count_hints_run, Ht1].
    destruct (get_hints_run SQLITE_MAX_VARIABLE_NUMBER [id2] db1) as (batches & Hb & Hrun);
      [done | rewrite Hl1; simpl; lia |].
    rewrite to_batches_singleton in Hb by done. injection Hb as <-.
    rewrite Hrun, Ht1. cbn [fst fmap list_fmap concat]. f_equal.
    rewrite app_nil_r. unfold hints_answer, select_rows, apply_limit, entries.
    unfold insert_or_ignore. rewrite decide_False by apply not_elem_of_nil.
    rewrite app_nil_l.
    rewrite filter_cons_True by (simpl; apply list_elem_of_singleton; done).
    rewrite filter_nil, filter_cons_False by (simpl; lia). done.
Qed.

Lemma get_hints_drops_unsized_hints_witness :
  let limit := 999 in
  let coin_ids := [id32 1; id32 2] in
  let db := store 1000 [row (id32 1) hint10; row (id32 2) (hint32 5)] in
  0 < limit
  ∧ (Z.to_nat limit ≤ host_parameter_limit db)%nat
  ∧ (2 ≤ host_parameter_limit db)%nat
  ∧ (∃ hints db',
       get_hints limit coin_ids db = (Ok hints, db')
       ∧ Forall (λ h, length h = 32%nat) hints
       ∧ (∀ r, r ∈ hints_table db → length (hint r) ≠ 32%nat → hint r ∉ hints)
       ∧ (∀ r, r ∈ hints_table db → coin_id r ∈ coin_ids →
               length (hint r) = 32%nat → hint r ∈ hints)
       ∧ fst (count_hints db') = Ok (Z.of_nat (length (hints_table db))))
  ∧ (∀ id2 h, length h = 10%nat →
       ∃ db1, add_hints [row id2 h] (with_table db []) = (Ok tt, db1)
         ∧ fst (get_hints limit [id2] db1) = Ok []
         ∧ fst (count_hints db1) = Ok 1).
Proof.
  intros limit coin_ids db.
  assert (H1 : 0 < limit) by (unfold limit; lia).
  assert (H2 : (Z.to_nat limit ≤ host_parameter_limit db)%nat) by (vm_compute; lia).
  assert (H3 : (2 ≤ host_parameter_limit db)%nat) by (vm_compute; lia).
  split; [exact H1|]. split; [exact H2|]. split; [exact H3|].
  exact (get_hints_drops_unsized_hints limit coin_ids db H1 H2 H3).
Defined.

(** Scenario D of the specification, evaluated. *)
Example scenario_D :
  let db1 := snd (add_hints [row (id32 2) hint10] (store 1000 [])) in
  fst (get_hints 999 [id32 2] db1) = Ok [] ∧ fst (count_hints db1) = Ok 1.
Proof. vm_compute. done. Qed.

(** C8.  [add_hints] never fails on a pair that is already stored: the
    call returns, every stored pair keeps its multiplicity, the table
    afterwards holds exactly the old pairs and the pairs of the batch, and
    it stays free of duplicates.  Inserting the same batch (in particular
    the same single pair) a second time leaves the table, and so
    [count_hints], unchanged. *)
Theorem add_hints_idempotent coin_hint_list db :
  (2 ≤ host_parameter_limit db)%nat →
  ∃ db1 db2,
    add_hints coin_hint_list db = (Ok tt, db1)
    ∧ (∀ r, r ∈ hints_table db1 ↔ r ∈ hints_table db ∨ r ∈ coin_hint_list)
    ∧ (∀ p, p ∈ hints_table db →
            filter (λ r, r = p) (hints_table db1)
            = filter (λ r, r = p) (hints_table db))
    ∧ (NoDup (hints_table db) → NoDup (hints_table db1))
    ∧ add_hints coin_hint_list db1 = (Ok tt, db2)
    ∧ hints_table db2 = hints_table db1
    ∧ fst (count_hints db2) = fst (count_hints db1).
Proof.
  intros Hlim.
  destruct (add_hints_run coin_hint_list db Hlim) as (db1 & Hrun1 & Hl1 & Ht1).
  destruct (add_hints_run coin_hint_list db1) as (db2 & Hrun2 & Hl2 & Ht2); [lia|].
  exists db1, db2. rewrite Ht1 in Ht2. rewrite insert_all_twice in Ht2.
  split; [done|]. rewrite Ht1.
  split; [apply insert_all_elem_of|].
  split; [intros p Hp; by apply insert_all_keeps_multiplicity|].
  split; [apply insert_all_NoDup|].
  split; [done|]. split; [done|].
  rewrite !count_hints_run. simpl. by rewrite Ht2, Ht1.
Qed.

Lemma add_hints_idempotent_witness :
  let pair := [row (id32 1) (hint32 1)] in
  let db := store 1000 three_items in
  (2 ≤ host_parameter_limit db)%nat
  ∧ ∃ db1 db2,
      add_hints pair db = (Ok tt, db1)
      ∧ (∀ r, r ∈ hints_table db1 ↔ r ∈ hints_table db ∨ r ∈ pair)
      ∧ (∀ p, p ∈ hints_table db →
              filter (λ r, r = p) (hints_table db1)
              = filter (λ r, r = p) (hints_table db))
      ∧ (NoDup (hints_table db) → NoDup (hints_table db1))
      ∧ add_hints pair db1 = (Ok tt, db2)
      ∧ hints_table db2 = hints_table db1
      ∧ fst (count_hints db2) = fst (count_hints db1).
Proof.
  intros pair db.
  assert (H : (2 ≤ host_parameter_limit db)%nat) by (vm_compute; lia).
  split; [exact H|].
  exact (add_hints_idempotent pair db H).
Defined.

(** Scenario A of the specification, evaluated. *)
Example scenario_A :
  let db1 := snd (add_hints [row (id32 1) (hint32 1)] (store 1000 [])) in
  fst (get_coin_ids (hint32 1) 50 db1) = Ok [id32 1].
Proof. vm_compute. done. Qed.

(** Scenario B of the specification, evaluated. *)
Example scenario_B :
  let pair := [row (id32 1) (hint32 1)] in
  let db1 := snd (add_hints pair (store 1000 [])) in
  let db2 := snd (add_hints pair db1) in
  fst (count_hints db1) = Ok 1 ∧ fst (count_hints db2) = Ok 1.
Proof. vm_compute. done. Qed.

(** C9.  For a non-empty list of hints, whatever the page size, a call
    that returns gives a triple whose [total_coin_count] is present exactly
    when no cursor was passed; and the call does return whenever its
    statements fit the backend's parameter limit and the page size is a
    64-bit integer. *)
Theorem total_count_only_without_cursor hints page_size last_id db :
  hints ≠ [] →
  (- 2 ^ 63 ≤ page_size < 2 ^ 63 →
   (length hints + match last_id with None => 0 | Some _ => 1 end
    ≤ host_parameter_limit db)%nat →
   ∃ coin_ids next_last_id total_coin_count db',
     get_coin_ids_by_hints_paginated hints page_size last_id db
     = (Ok (ReturnTuple coin_ids next_last_id total_coin_count), db')
     ∧ (is_Some total_coin_count ↔ last_id = None))
  ∧ (∀ r db',
       get_coin_ids_by_hints_paginated hints page_size last_id db = (Ok r, db') →
       ∃ coin_ids next_last_id total_coin_count,
         r = ReturnTuple coin_ids next_last_id total_coin_count
         ∧ (is_Some total_coin_count ↔ last_id = None)).
Proof.
  intros Hne. split.
  - intros Hsize Hlim. do 4 eexists.
    split; [by apply get_coin_ids_by_hints_paginated_run|].
    destruct last_id; split; intros H; try done.
  - intros r db' Hrun.
    destruct (decide (length hints + match last_id with None => 0 | Some _ => 1 end
                      ≤ host_parameter_limit db)%nat) as [Hlim|Hlim].
    + destruct (decide (int64 page_size)) as [Hsize|Hsize].
      * rewrite get_coin_ids_by_hints_paginated_run in Hrun by done.
        injection Hrun as <- _. do 3 eexists. split; [done|].
        destruct last_id; split; intros H; try done.
      * rewrite get_coin_ids_by_hints_paginated_out_of_range in Hrun by done.
        discriminate.
    + destruct (get_coin_ids_by_hints_paginated_rejected hints page_size last_id db)
        as [db'' E]; [done | lia |].
      rewrite E in Hrun. discriminate.
Qed.

Lemma total_count_only_without_cursor_witness :
  let hints := [hint32 1; hint32 2] in
  let db := store 10 three_items in
  let last_id := Some (id32 1) in
  hints ≠ []
  ∧ - 2 ^ 63 ≤ 2 < 2 ^ 63
  ∧ (length hints + 1 ≤ host_parameter_limit db)%nat
  ∧ (∃ coin_ids next_last_id total_coin_count db',
       get_coin_ids_by_hints_paginated hints 2 last_id db
       = (Ok (ReturnTuple coin_ids next_last_id total_coin_count), db')
       ∧ (is_Some total_coin_count ↔ last_id = None))
  ∧ (∀ r db',
       get_coin_ids_by_hints_paginated hints 2 last_id db = (Ok r, db') →
       ∃ coin_ids next_last_id total_coin_count,
         r = ReturnTuple coin_ids next_last_id total_coin_count
         ∧ (is_Some total_coin_count ↔ last_id = None)).
Proof.
  intros hints db last_id.
  assert (H1 : hints ≠ []) by done.
  assert (H2 : - 2 ^ 63 ≤ 2 < 2 ^ 63) by lia.
  assert (H3 : (length hints + 1 ≤ host_parameter_limit db)%nat) by (vm_compute; lia).
  split; [exact H1|]. split; [exact H2|]. split; [exact H3|].
  destruct (total_count_only_without_cursor hints 2 last_id db H1) as [Hreturns Honly].
  split; [exact (Hreturns H2 H3) | exact Honly].
Defined.

(** With and without a cursor on the three-item store; and a page size
    that is no 64-bit integer, where the call raises. *)
Example total_count_first_and_later_page :
  let db := store 10 three_items in
  fst (get_coin_ids_by_hints_paginated [hint32 1; hint32 2] 2 None db)
  = Ok (ReturnTuple [id32 1; id32 2] (Some (id32 2)) (Some 4))
  ∧ fst (get_coin_ids_by_hints_paginated [hint32 1; hint32 2] 2 (Some (id32 2)) db)
    = Ok (ReturnTuple [id32 3] (Some (id32 3)) None)
  ∧ fst (get_coin_ids_by_hints_paginated [hint32 1; hint32 2] (2 ^ 63) None db)
    = Raise IntegrityError.
Proof. vm_compute. done. Qed.

(** C10.  For a page size with [0 < page_size < 2^63] and hints that, with
    the cursor, fit the backend's parameter limit: the count returned with
    the first page is the number of stored rows whose hint is queried.  The
    distinct coin ids that the full pagination delivers are at most as
    many, and strictly fewer as soon as one coin id is stored under two of
    the queried hints. *)
Theorem total_count_counts_rows hints page_size fuel db :
  hints ≠ [] →
  0 < page_size < 2 ^ 63 →
  (length hints + 1 ≤ host_parameter_limit db)%nat →
  (length (hints_table db) < fuel)%nat →
  ∃ coin_ids next_last_id total pages db1 db2,
    get_coin_ids_by_hints_paginated hints page_size None db
    = (Ok (ReturnTuple coin_ids next_last_id (Some total)), db1)
    ∧ total = Z.of_nat (length (filter (λ r, hint r ∈ hints) (hints_table db)))
    ∧ collect_pages fuel hints page_size None db = (Ok (Some pages), db2)
    ∧ Z.of_nat (length (remove_dups (concat pages))) ≤ total
    ∧ (∀ c h1 h2, h1 ≠ h2 → h1 ∈ hints → h2 ∈ hints →
         row c h1 ∈ hints_table db → row c h2 ∈ hints_table db →
         Z.of_nat (length (remove_dups (concat pages))) < total).
Proof.
  intros Hne Hsize Hlim Hfuel.
  set (table := hints_table db) in *.
  pose proof (ascending_ids_sorted hints table) as Hsorted.
  pose proof (ascending_ids_Permutation hints table) as Hperm.
  pose proof (int64_positive _ Hsize) as Hrange.
  destruct (collect_pages_paged hints page_size table (host_parameter_limit db)
              Hne Hlim (proj1 Hsize) Hrange fuel None db)
    as (pages & db2 & Hrun & Hpaged); [done | done | |].
  { simpl. rewrite Hperm. pose proof (matching_ids_length hints table). lia. }
  simpl in Hpaged.
  assert (Hset : ∀ c, c ∈ concat pages ↔ c ∈ matching_ids hints table).
  { intros c. rewrite <- Hperm. split.
    - intros Hc. eapply elem_of_sublist; [exact Hc|]. by eapply paged_sublist.
    - by eapply paged_complete. }
  assert (Hcount : length (matching_ids hints table)
                   = length (filter (λ r, hint r ∈ hints) table)).
  { unfold matching_ids. by rewrite length_fmap, filter_HintIn. }
  do 6 eexists.
  split; [rewrite get_coin_ids_by_hints_paginated_run by (done || (simpl; lia)); done|].
  assert (Htotal : count_rows (Some (HintIn hints)) (hints_table db)
                   = Z.of_nat (length (matching_ids hints table))).
  { unfold count_rows, matching_ids. by rewrite length_fmap. }
  rewrite Htotal.
  split; [by rewrite Hcount|].
  split; [exact Hrun|].
  rewrite (remove_dups_length_equiv _ _ Hset).
  pose proof (remove_dups_length_le (matching_ids hints table)) as Hle.
  split; [lia|].
  intros c h1 h2 Hh Hh1 Hh2 Hr1 Hr2.
  assert (length (remove_dups (matching_ids hints table))
          ≠ length (matching_ids hints table)); [|lia].
  intros Hnd%remove_dups_length_eq_NoDup.
  apply Hh.
  assert (row c h1 = row c h2) as [= ?]; [|done].
  eapply (NoDup_fmap_elem_inj coin_id); [exact Hnd| | |done];
    apply list_elem_of_filter; by split.
Qed.

Lemma total_count_counts_rows_witness :
  let hints := [hint32 1; hint32 2] in
  let db := store 10 three_items in
  hints ≠ []
  ∧ 0 < 2 < 2 ^ 63
  ∧ (length hints + 1 ≤ host_parameter_limit db)%nat
  ∧ (length (hints_table db) < 5)%nat
  ∧ ∃ coin_ids next_last_id total pages db1 db2,
      get_coin_ids_by_hints_paginated hints 2 None db
      = (Ok (ReturnTuple coin_ids next_last_id (Some total)), db1)
      ∧ total = Z.of_nat (length (filter (λ r, hint r ∈ hints) (hints_table db)))
      ∧ collect_pages 5 hints 2 None db = (Ok (Some pages), db2)
      ∧ Z.of_nat (length (remove_dups (concat pages))) ≤ total
      ∧ Z.of_nat (length (remove_dups (concat pages))) < total.
Proof.
  intros hints db.
  assert (H1 : hints ≠ []) by done.
  assert (H2 : 0 < 2 < 2 ^ 63) by lia.
  assert (H3 : (length hints + 1 ≤ host_parameter_limit db)%nat) by (vm_compute; lia).
  assert (H4 : (length (hints_table db) < 5)%nat) by (vm_compute; lia).
  assert (H5 : hint32 1 ≠ hint32 2) by (vm_compute; discriminate).
  assert (H6 : hint32 1 ∈ hints) by (by left).
  assert (H7 : hint32 2 ∈ hints) by (right; by left).
  assert (H8 : row (id32 2) (hint32 1) ∈ hints_table db) by (by left).
  assert (H9 : row (id32 2) (hint32 2) ∈ hints_table db)
    by (right; right; by left).
  split; [exact H1|]. split; [exact H2|]. split; [exact H3|]. split; [exact H4|].
  destruct (total_count_counts_rows hints 2 5 db H1 H2 H3 H4)
    as (coin_ids & next_last_id & total & pages & db1 & db2
        & Hpage & Htotal & Hpages & Hle & Hlt).
  exists coin_ids, next_last_id, total, pages, db1, db2.
  split; [exact Hpage|]. split; [exact Htotal|]. split; [exact Hpages|].
  split; [exact Hle|].
  exact (Hlt (id32 2) (hint32 1) (hint32 2) H5 H6 H7 H8 H9).
Defined.

(** Four rows match, three distinct coin ids are delivered. *)
Example total_count_three_items :
  let db := store 10 three_items in
  fst (get_coin_ids_by_hints_paginated [hint32 1; hint32 2] 2 None db)
  = Ok (ReturnTuple [id32 1; id32 2] (Some (id32 2)) (Some 4))
  ∧ fst (collect_pages 5 [hint32 1; hint32 2] 2 None db)
    = Ok (Some [[id32 1; id32 2]; [id32 3]]).
Proof. vm_compute. done. Qed.


(** * Further properties of the store *)

(** ** Reads do not write *)

Lemma read_only_ret {A} (a : A) : read_only (ret a).
Proof. intros db. done. Qed.

Lemma read_only_lift {A} (r : result A) : read_only (lift r).
Proof. intros db. done. Qed.

Lemma read_only_bind {A B} (m : DB A) (k : A → DB B) :
  read_only m → (∀ a, read_only (k a)) → read_only (bind m k).
Proof.
  intros Hm Hk db. unfold bind.
  destruct (Hm db) as (Ht & Hl & Hj).
  destruct (m db) as [[a|e] db1]; simpl in *; [|done].
  destruct (Hk a db1) as (Ht' & Hl' & Hj').
  split; [congruence|]. split; [congruence|]. by etrans.
Qed.

Lemma read_only_send st : read_only (send st).
Proof.
  intros db. unfold send.
  case_decide; simpl; (split; [done|]; split; [done|]; by apply prefix_app_r).
Qed.

Lemma read_only_raise {A} (e : exn) : read_only (raise e : DB A).
Proof. intros db. done. Qed.

Lemma read_only_execute_fetchall st lim answer :
  read_only (execute_fetchall st lim answer).
Proof.
  unfold execute_fetchall. apply read_only_bind; [apply read_only_send|].
  intros _. destruct (limit_error lim); [apply read_only_raise|].
  apply read_only_bind; [by intros db|]. intros t. apply read_only_ret.
Qed.

Lemma read_only_fetchall cols w o lim : read_only (fetchall cols w o lim).
Proof. apply read_only_execute_fetchall. Qed.

Lemma read_only_fetchall_indexed_by ix cols w lim :
  read_only (fetchall_indexed_by ix cols w lim).
Proof. apply read_only_execute_fetchall. Qed.

Lemma read_only_fetchone_count w : read_only (fetchone_count w).
Proof.
  unfold fetchone_count. apply read_only_bind; [apply read_only_send|].
  intros _. apply read_only_bind; [by intros db|]. intros t. apply read_only_ret.
Qed.

Lemma read_only_for_each {A S} (l : list A) (body : A → S → DB S) acc :
  (∀ x s, read_only (body x s)) → read_only (for_each l body acc).
Proof.
  intros Hbody. revert acc. induction l as [|x l IH]; intros acc; simpl.
  - apply read_only_ret.
  - apply read_only_bind; [apply Hbody | apply IH].
Qed.

Create HintDb read_only.

#[local] Hint Resolve read_only_ret read_only_lift read_only_send
  read_only_fetchall read_only_fetchall_indexed_by read_only_fetchone_count
  : read_only.

Ltac read_only_steps :=
  repeat first
    [ solve [auto with read_only]
    | apply read_only_for_each; intros ? ?
    | apply read_only_bind; [|intros ?] ].

(** X1.  None of the lookups, the paginated query or the count changes
    the stored rows or the backend's limit, whatever their arguments and
    whether they return or raise; each only adds to the statements sent. *)
Theorem lookups_are_read_only SQLITE_MAX_VARIABLE_NUMBER :
  (∀ hint_ max_items, read_only (get_coin_ids hint_ max_items))
  ∧ (∀ hints, read_only (get_coin_ids_by_hints hints))
  ∧ (∀ hints page_size last_id,
       read_only (get_coin_ids_by_hints_paginated hints page_size last_id))
  ∧ (∀ hints max_items,
       read_only (get_coin_ids_multi SQLITE_MAX_VARIABLE_NUMBER hints max_items))
  ∧ (∀ coin_ids, read_only (get_hints SQLITE_MAX_VARIABLE_NUMBER coin_ids))
  ∧ (∀ coin_ids, read_only (get_hints_for_coin_ids coin_ids))
  ∧ read_only count_hints.
Proof.
  repeat apply conj.
  - intros. unfold get_coin_ids. read_only_steps.
  - intros. unfold get_coin_ids_by_hints. case_decide; read_only_steps.
  - intros hints page_size last_id. unfold get_coin_ids_by_hints_paginated.
    case_decide; [read_only_steps|].
    apply read_only_bind; [destruct last_id; read_only_steps|].
    intros ?. read_only_steps.
  - intros. unfold get_coin_ids_multi. read_only_steps.
  - intros. unfold get_hints. read_only_steps.
  - intros. unfold get_hints_for_coin_ids. case_decide; read_only_steps.
  - unfold count_hints. read_only_steps.
Qed.

(** ** Inserting *)

Lemma insert_all_appends values table :
  ∃ new,
    fold_left insert_or_ignore values table = table ++ new
    ∧ new `sublist_of` values
    ∧ NoDup new
    ∧ (∀ r, r ∈ new ↔ r ∈ values ∧ r ∉ table).
Proof.
  revert table. induction values as [|v values IH]; intros table; simpl.
  { exists []. rewrite app_nil_r. split; [done|]. split; [done|].
    split; [constructor|]. intros r. rewrite elem_of_nil. tauto. }
  unfold insert_or_ignore at 2. case_decide as Hv.
  - destruct (IH table) as (new & E & Hsub & Hnd & Hin).
    exists new. split; [done|]. split; [by apply sublist_cons|]. split; [done|].
    intros r. rewrite Hin, elem_of_cons. split; [tauto|].
    intros [[->|Hr] Hnot]; [done | tauto].
  - destruct (IH (table ++ [v])) as (new & E & Hsub & Hnd & Hin).
    exists (v :: new). rewrite E, <- app_assoc. split; [done|].
    split; [by apply sublist_skip|]. split.
    + apply NoDup_cons. split; [|done]. intros Hvn%Hin.
      destruct Hvn as [_ Hvn]. apply Hvn, elem_of_app. right. by left.
    + intros r. rewrite !elem_of_cons, Hin, elem_of_app, list_elem_of_singleton.
      destruct (decide (r = v)) as [->|Hne]; tauto.
Qed.

Lemma insert_all_fresh values table :
  NoDup values → (∀ r, r ∈ values → r ∉ table) →
  fold_left insert_or_ignore values table = table ++ values.
Proof.
  revert table. induction values as [|v values IH]; intros table Hnd Hfresh; simpl.
  { by rewrite app_nil_r. }
  apply NoDup_cons in Hnd as [Hv Hnd].
  unfold insert_or_ignore at 2. rewrite decide_False by (apply Hfresh; by left).
  rewrite IH, <- app_assoc; [done | done |].
  intros r Hr [Hin|Hin%list_elem_of_singleton]%elem_of_app.
  - by apply (Hfresh r); [right|].
  - by subst.
Qed.

(** X2.  [add_hints] only appends: the rows stored before stay where they
    are, and the rows added are the pairs of the batch that were not yet
    stored, each once, in the order of the batch.  [count_hints] grows by
    their number, which is the size of the batch when the batch is free of
    duplicates and none of its pairs is stored. *)
Theorem add_hints_appends coin_hint_list db :
  (2 ≤ host_parameter_limit db)%nat →
  ∃ db' new,
    add_hints coin_hint_list db = (Ok tt, db')
    ∧ hints_table db' = hints_table db ++ new
    ∧ new `sublist_of` coin_hint_list
    ∧ NoDup new
    ∧ (∀ r, r ∈ new ↔ r ∈ coin_hint_list ∧ r ∉ hints_table db)
    ∧ fst (count_hints db')
      = Ok (Z.of_nat (length (hints_table db)) + Z.of_nat (length new))
    ∧ (NoDup coin_hint_list →
       (∀ r, r ∈ coin_hint_list → r ∉ hints_table db) →
       new = coin_hint_list).
Proof.
  intros Hlim.
  destruct (add_hints_run coin_hint_list db Hlim) as (db' & Hrun & _ & Ht).
  destruct (insert_all_appends coin_hint_list (hints_table db))
    as (new & E & Hsub & Hnd & Hin).
  exists db', new. rewrite Ht, E.
  split; [done|]. split; [done|]. split; [done|]. split; [done|]. split; [done|].
  split.
  - rewrite count_hints_run. simpl. rewrite Ht, E, length_app. f_equal. lia.
  - intros Hndl Hfresh. rewrite insert_all_fresh in E by done.
    by apply app_inv_head in E.
Qed.

Lemma add_hints_appends_witness :
  let batch := [row (id32 2) (hint32 1); row (id32 7) (hint32 7);
                row (id32 7) (hint32 7)] in
  let db := store 1000 three_items in
  (2 ≤ host_parameter_limit db)%nat
  ∧ ∃ db' new,
      add_hints batch db = (Ok tt, db')
      ∧ hints_table db' = hints_table db ++ new
      ∧ new `sublist_of` batch
      ∧ NoDup new
      ∧ (∀ r, r ∈ new ↔ r ∈ batch ∧ r ∉ hints_table db)
      ∧ fst (count_hints db')
        = Ok (Z.of_nat (length (hints_table db)) + Z.of_nat (length new))
      ∧ (NoDup batch → (∀ r, r ∈ batch → r ∉ hints_table db) → new = batch).
Proof.
  intros batch db.
  assert (H : (2 ≤ host_parameter_limit db)%nat) by (vm_compute; lia).
  split; [exact H|].
  exact (add_hints_appends batch db H).
Defined.

(** X3.  How the pairs are batched does not matter to what is stored:
    inserting a concatenation leaves the same table as inserting its two
    parts one after the other, and inserting a reordered batch leaves the
    same rows, up to the order of the new ones. *)
Theorem add_hints_batches_compose l1 l2 db :
  (2 ≤ host_parameter_limit db)%nat →
  hints_table (snd (add_hints (l1 ++ l2) db))
  = hints_table (snd (add_hints l2 (snd (add_hints l1 db))))
  ∧ (∀ l, l ≡ₚ l1 →
       hints_table (snd (add_hints l db)) ≡ₚ hints_table (snd (add_hints l1 db))).
Proof.
  intros Hlim. split.
  - destruct (add_hints_run (l1 ++ l2) db Hlim) as (db' & E' & _ & Ht').
    destruct (add_hints_run l1 db Hlim) as (db1 & E1 & Hl1 & Ht1).
    destruct (add_hints_run l2 db1) as (db2 & E2 & _ & Ht2); [lia|].
    rewrite E', E1. simpl. rewrite E2. simpl.
    by rewrite Ht', Ht2, Ht1, fold_left_app.
  - intros l Hperm.
    destruct (add_hints_run l db Hlim) as (db' & E' & _ & Ht').
    destruct (add_hints_run l1 db Hlim) as (db1 & E1 & _ & Ht1).
    rewrite E', E1. simpl. rewrite Ht', Ht1.
    destruct (insert_all_appends l (hints_table db)) as (new & -> & _ & Hnd & Hin).
    destruct (insert_all_appends l1 (hints_table db)) as (new1 & -> & _ & Hnd1 & Hin1).
    apply Permutation_app; [done|]. apply NoDup_Permutation; [done..|].
    intros r. rewrite Hin, Hin1. by rewrite Hperm.
Qed.

Lemma add_hints_batches_compose_witness :
  let l1 := [row (id32 7) (hint32 7); row (id32 2) (hint32 1)] in
  let l2 := [row (id32 8) (hint32 7); row (id32 7) (hint32 7)] in
  let db := store 1000 three_items in
  (2 ≤ host_parameter_limit db)%nat
  ∧ hints_table (snd (add_hints (l1 ++ l2) db))
    = hints_table (snd (add_hints l2 (snd (add_hints l1 db))))
  ∧ (∀ l, l ≡ₚ l1 →
       hints_table (snd (add_hints l db)) ≡ₚ hints_table (snd (add_hints l1 db))).
Proof.
  intros l1 l2 db.
  assert (H : (2 ≤ host_parameter_limit db)%nat) by (vm_compute; lia).
  split; [exact H|].
  exact (add_hints_batches_compose l1 l2 db H).
Defined.

(** ** Insert, then look up *)

Lemma insert_all_sized values table :
  coin_ids_sized table → coin_ids_sized values →
  coin_ids_sized (fold_left insert_or_ignore values table).
Proof.
  unfold coin_ids_sized. rewrite !Forall_forall. intros Ht Hv r Hr.
  apply insert_all_elem_of in Hr as [Hr|Hr]; auto.
Qed.

Lemma insert_all_length values table :
  (length (fold_left insert_or_ignore values table)
   ≤ length table + length values)%nat.
Proof.
  destruct (insert_all_appends values table) as (new & -> & Hsub & _).
  rewrite length_app. apply sublist_length in Hsub. lia.
Qed.

Lemma hint_rows_elem_of (table : list Row) h c :
  c ∈ coin_id <$> filter (satisfies (HintEq h)) table ↔ row c h ∈ table.
Proof.
  rewrite list_elem_of_fmap. split.
  - intros (r & -> & [Hh Hr]%list_elem_of_filter). simpl in Hh. subst.
    by destruct r.
  - intros Hr. exists (row c h). split; [done|]. by apply list_elem_of_filter.
Qed.

Lemma get_hints_elem_of SQLITE_MAX_VARIABLE_NUMBER coin_ids db :
  0 < SQLITE_MAX_VARIABLE_NUMBER →
  (Z.to_nat SQLITE_MAX_VARIABLE_NUMBER ≤ host_parameter_limit db)%nat →
  ∃ hs db',
    get_hints SQLITE_MAX_VARIABLE_NUMBER coin_ids db = (Ok hs, db')
    ∧ ∀ h, h ∈ hs
           ↔ length h = 32%nat ∧ ∃ c, c ∈ coin_ids ∧ row c h ∈ hints_table db.
Proof.
  intros Hpos Hlim.
  destruct (get_hints_run SQLITE_MAX_VARIABLE_NUMBER coin_ids db)
    as (batches & Hb & Hrun); [done..|].
  destruct (to_batches_ok coin_ids _ Hpos) as (batches' & Hb' & Hcat & _).
  rewrite Hb in Hb'. injection Hb' as <-.
  do 2 eexists. split; [exact Hrun|].
  intros h. rewrite elem_of_concat. split.
  - intros (part & Hh & Hpart).
    apply list_elem_of_fmap in Hpart as (b & -> & Hb').
    unfold hints_answer in Hh. apply list_elem_of_fmap in Hh as (r & -> & Hr).
    apply list_elem_of_filter in Hr as [Hlen Hr].
    apply select_rows_elem_of in Hr as [Hr Hc]. simpl in Hc.
    split; [done|]. exists (coin_id r). split; [|by destruct r].
    rewrite <- Hcat. apply elem_of_concat. exists (entries b).
    split; [done | by apply list_elem_of_fmap_2].
  - intros (Hlen & c & Hc & Hr).
    rewrite <- Hcat in Hc. apply elem_of_concat in Hc as (part & Hc & Hpart).
    apply list_elem_of_fmap in Hpart as (b & -> & Hb').
    exists (hints_answer (hints_table db) b). split; [|by apply list_elem_of_fmap_2].
    unfold hints_answer. apply (list_elem_of_fmap_2' _ _ (row c h)); [|done].
    apply list_elem_of_filter. split; [done|].
    unfold select_rows. simpl. by apply list_elem_of_filter.
Qed.

(** X4.  Insert, then look up by hint.  The backend binds two parameters
    or more, the coin ids stored and inserted are 32 bytes long, and
    [max_items] is a 64-bit integer that is negative or at least the
    number of rows stored and inserted.  Then after [add_hints] of the
    batch, [get_coin_ids] on a hint returns exactly the coin ids stored
    under that hint before or inserted with it by the batch. *)
Theorem add_hints_then_get_coin_ids coin_hint_list hint_ max_items db :
  (2 ≤ host_parameter_limit db)%nat →
  coin_ids_sized (hints_table db) →
  coin_ids_sized coin_hint_list →
  - 2 ^ 63 ≤ max_items < 2 ^ 63 →
  max_items < 0
  ∨ Z.of_nat (length (hints_table db) + length coin_hint_list) ≤ max_items →
  ∃ db1 ids db2,
    add_hints coin_hint_list db = (Ok tt, db1)
    ∧ get_coin_ids hint_ max_items db1 = (Ok ids, db2)
    ∧ ∀ c, c ∈ ids ↔ row c hint_ ∈ hints_table db ∨ row c hint_ ∈ coin_hint_list.
Proof.
  intros Hlim Hsized Hbatch Hmax Hcap.
  destruct (add_hints_run coin_hint_list db Hlim) as (db1 & Hadd & Hl1 & Ht1).
  exists db1. do 2 eexists. split; [done|].
  split.
  - apply get_coin_ids_run; [done|lia|]. rewrite Ht1. by apply insert_all_sized.
  - intros c. unfold select_rows, apply_limit. rewrite limit_count_all.
    + rewrite hint_rows_elem_of, Ht1. apply insert_all_elem_of.
    + destruct Hcap as [?|Hcap]; [by left|]. right.
      pose proof (length_filter (satisfies (HintEq hint_)) (hints_table db1)).
      pose proof (insert_all_length coin_hint_list (hints_table db)).
      rewrite <- Ht1 in *. lia.
Qed.

Lemma add_hints_then_get_coin_ids_witness :
  let batch := [row (id32 7) (hint32 1); row (id32 8) (hint32 9)] in
  let db := store 1000 three_items in
  (2 ≤ host_parameter_limit db)%nat
  ∧ coin_ids_sized (hints_table db)
  ∧ coin_ids_sized batch
  ∧ - 2 ^ 63 ≤ -1 < 2 ^ 63
  ∧ (-1 < 0 ∨ Z.of_nat (length (hints_table db) + length batch) ≤ -1)
  ∧ ∃ db1 ids db2,
      add_hints batch db = (Ok tt, db1)
      ∧ get_coin_ids (hint32 1) (-1) db1 = (Ok ids, db2)
      ∧ ∀ c, c ∈ ids ↔ row c (hint32 1) ∈ hints_table db ∨ row c (hint32 1) ∈ batch.
Proof.
  intros batch db.
  assert (H1 : (2 ≤ host_parameter_limit db)%nat) by (vm_compute; lia).
  assert (H2 : coin_ids_sized (hints_table db)).
  { unfold coin_ids_sized. simpl. repeat constructor. }
  assert (H3 : coin_ids_sized batch).
  { unfold coin_ids_sized. simpl. repeat constructor. }
  assert (H4 : - 2 ^ 63 ≤ -1 < 2 ^ 63) by lia.
  assert (H5 : -1 < 0 ∨ Z.of_nat (length (hints_table db) + length batch) ≤ -1)
    by (left; lia).
  split; [exact H1|]. split; [exact H2|]. split; [exact H3|]. split; [exact H4|].
  split; [exact H5|].
  exact (add_hints_then_get_coin_ids batch (hint32 1) (-1) db H1 H2 H3 H4 H5).
Defined.

(** X5.  Insert, then look up by coin id: after [add_hints] of a batch,
    [get_hints] on a list of coin ids returns exactly the 32-byte hints
    that one of these coin ids was stored under before or is given by the
    batch; a hint of another length that the batch inserts is stored but not
    returned. *)
Theorem add_hints_then_get_hints
    SQLITE_MAX_VARIABLE_NUMBER coin_hint_list coin_ids db :
  0 < SQLITE_MAX_VARIABLE_NUMBER →
  (Z.to_nat SQLITE_MAX_VARIABLE_NUMBER ≤ host_parameter_limit db)%nat →
  (2 ≤ host_parameter_limit db)%nat →
  ∃ db1 hs db2,
    add_hints coin_hint_list db = (Ok tt, db1)
    ∧ get_hints SQLITE_MAX_VARIABLE_NUMBER coin_ids db1 = (Ok hs, db2)
    ∧ (∀ r, r ∈ coin_hint_list → r ∈ hints_table db1)
    ∧ ∀ h, h ∈ hs
           ↔ length h = 32%nat
             ∧ ∃ c, c ∈ coin_ids
                    ∧ (row c h ∈ hints_table db ∨ row c h ∈ coin_hint_list).
Proof.
  intros Hpos Hlim Hlim2.
  destruct (add_hints_run coin_hint_list db Hlim2) as (db1 & Hadd & Hl1 & Ht1).
  destruct (get_hints_elem_of SQLITE_MAX_VARIABLE_NUMBER coin_ids db1)
    as (hs & db2 & Hrun & Hin); [done | lia |].
  exists db1, hs, db2. split; [done|]. split; [done|]. split.
  - intros r Hr. rewrite Ht1. apply insert_all_elem_of. by right.
  - intros h. rewrite Hin, Ht1. by setoid_rewrite insert_all_elem_of.
Qed.

Lemma add_hints_then_get_hints_witness :
  let limit := 999 in
  let batch := [row (id32 7) (hint32 1); row (id32 7) hint10] in
  let coin_ids := [id32 7; id32 2] in
  let db := store 1000 three_items in
  0 < limit
  ∧ (Z.to_nat limit ≤ host_parameter_limit db)%nat
  ∧ (2 ≤ host_parameter_limit db)%nat
  ∧ ∃ db1 hs db2,
      add_hints batch db = (Ok tt, db1)
      ∧ get_hints limit coin_ids db1 = (Ok hs, db2)
      ∧ (∀ r, r ∈ batch → r ∈ hints_table db1)
      ∧ ∀ h, h ∈ hs
             ↔ length h = 32%nat
               ∧ ∃ c, c ∈ coin_ids
                      ∧ (row c h ∈ hints_table db ∨ row c h ∈ batch).
Proof.
  intros limit batch coin_ids db.
  assert (H1 : 0 < limit) by (unfold limit; lia).
  assert (H2 : (Z.to_nat limit ≤ host_parameter_limit db)%nat) by (vm_compute; lia).
  assert (H3 : (2 ≤ host_parameter_limit db)%nat) by (vm_compute; lia).
  split; [exact H1|]. split; [exact H2|]. split; [exact H3|].
  exact (add_hints_then_get_hints limit batch coin_ids db H1 H2 H3).
Defined.

Lemma hint_dict_lookup coin_ids db :
  coin_ids ≠ [] →
  (length coin_ids ≤ host_parameter_limit db)%nat →
  ∃ d db',
    get_hints_for_coin_ids coin_ids db = (Ok (ReturnDict d), db')
    ∧ (∀ c h, d !! c = Some h → c ∈ coin_ids ∧ row c h ∈ hints_table db)
    ∧ (∀ c h, c ∈ coin_ids → row c h ∈ hints_table db → is_Some (d !! c)).
Proof.
  intros Hne Hlim. do 2 eexists.
  split; [by apply get_hints_for_coin_ids_run|].
  split.
  - intros c h (Hc & Hr & _)%hint_dict_greatest. done.
  - intros c h Hc Hr.
    rewrite dict_of_rows_lookup, lookup_empty, autoindex_answer_coin_id.
    rewrite decide_True by done.
    pose proof (last_by_hint (filter (λ r, coin_id r = c) (hints_table db))) as Hlast.
    destruct (last _) as [r|]; [by eexists|].
    assert (Hin : row c h ∈ filter (λ r, coin_id r = c) (hints_table db))
      by by apply list_elem_of_filter.
    rewrite Hlast in Hin. by apply elem_of_nil in Hin.
Qed.

(** X6.  Insert, then build the dictionary: after [add_hints] of a batch,
    [get_hints_for_coin_ids] has a key for exactly the requested coin ids
    that were stored before or occur in the batch, every value is a hint
    its key is stored with, and a coin id that has a single hint in all is
    mapped to that hint. *)
Theorem add_hints_then_get_hints_for_coin_ids coin_hint_list coin_ids db :
  coin_ids ≠ [] →
  (length coin_ids ≤ host_parameter_limit db)%nat →
  (2 ≤ host_parameter_limit db)%nat →
  ∃ db1 d db2,
    add_hints coin_hint_list db = (Ok tt, db1)
    ∧ get_hints_for_coin_ids coin_ids db1 = (Ok (ReturnDict d), db2)
    ∧ (∀ c, is_Some (d !! c)
            ↔ c ∈ coin_ids
              ∧ ∃ h, row c h ∈ hints_table db ∨ row c h ∈ coin_hint_list)
    ∧ (∀ c h, d !! c = Some h →
              row c h ∈ hints_table db ∨ row c h ∈ coin_hint_list)
    ∧ (∀ c h, c ∈ coin_ids →
              row c h ∈ hints_table db ∨ row c h ∈ coin_hint_list →
              (∀ h', row c h' ∈ hints_table db ∨ row c h' ∈ coin_hint_list →
                     h' = h) →
              d !! c = Some h).
Proof.
  intros Hne Hlim Hlim2.
  destruct (add_hints_run coin_hint_list db Hlim2) as (db1 & Hadd & Hl1 & Ht1).
  destruct (hint_dict_lookup coin_ids db1) as (d & db2 & Hrun & Hval & Hkey);
    [done | lia |].
  assert (Hstored : ∀ c h, row c h ∈ hints_table db1
                           ↔ row c h ∈ hints_table db ∨ row c h ∈ coin_hint_list).
  { intros c h. rewrite Ht1. apply insert_all_elem_of. }
  exists db1, d, db2. split; [done|]. split; [done|]. split; [|split].
  - intros c. split.
    + intros [h Hh]. destruct (Hval c h Hh) as [Hc Hr].
      split; [done|]. exists h. by apply Hstored.
    + intros (Hc & h & Hr). apply (Hkey c h Hc). by apply Hstored.
  - intros c h Hh. apply Hstored. by apply Hval.
  - intros c h Hc Hr Honly.
    destruct (Hkey c h Hc) as [h' Hh']; [by apply Hstored|].
    rewrite Hh'. f_equal. apply Honly, Hstored. by apply Hval.
Qed.

Lemma add_hints_then_get_hints_for_coin_ids_witness :
  let batch := [row (id32 7) hint10] in
  let coin_ids := [id32 7; id32 2] in
  let db := store 1000 three_items in
  coin_ids ≠ []
  ∧ (length coin_ids ≤ host_parameter_limit db)%nat
  ∧ (2 ≤ host_parameter_limit db)%nat
  ∧ ∃ db1 d db2,
      add_hints batch db = (Ok tt, db1)
      ∧ get_hints_for_coin_ids coin_ids db1 = (Ok (ReturnDict d), db2)
      ∧ (∀ c, is_Some (d !! c)
              ↔ c ∈ coin_ids ∧ ∃ h, row c h ∈ hints_table db ∨ row c h ∈ batch)
      ∧ (∀ c h, d !! c = Some h → row c h ∈ hints_table db ∨ row c h ∈ batch)
      ∧ (∀ c h, c ∈ coin_ids →
                row c h ∈ hints_table db ∨ row c h ∈ batch →
                (∀ h', row c h' ∈ hints_table db ∨ row c h' ∈ batch → h' = h) →
                d !! c = Some h).
Proof.
  intros batch coin_ids db.
  assert (H1 : coin_ids ≠ []) by done.
  assert (H2 : (length coin_ids ≤ host_parameter_limit db)%nat) by (vm_compute; lia).
  assert (H3 : (2 ≤ host_parameter_limit db)%nat) by (vm_compute; lia).
  split; [exact H1|]. split; [exact H2|]. split; [exact H3|].
  exact (add_hints_then_get_hints_for_coin_ids batch coin_ids db H1 H2 H3).
Defined.

(** ** The single-hint lookup *)

Lemma comprehension_bytes32_unsized {A} (f : A → bytes) (l : list A) :
  ¬ Forall (λ x, length (f x) = 32%nat) l →
  comprehension (λ x, bytes32 (f x)) l = Raise ValueError.
Proof.
  induction l as [|x l IH]; intros Hnot; [by destruct Hnot|]. simpl.
  unfold bytes32 at 1. case_decide as Hx; [|done].
  rewrite IH; [done|]. intros Hl. apply Hnot. by constructor.
Qed.

(** X7.  [get_coin_ids] truncates without a sign.  On a backend that
    binds two parameters or more and a store whose coin ids are 32 bytes
    long, with [0 <= max_items < 2^63], it returns [max_items] of the coin
    ids stored under the hint, or all of them when they are fewer, each as
    often as it is stored under the hint at most. *)
Theorem get_coin_ids_truncates hint_ max_items db :
  (2 ≤ host_parameter_limit db)%nat →
  coin_ids_sized (hints_table db) →
  0 ≤ max_items < 2 ^ 63 →
  ∃ ids db',
    get_coin_ids hint_ max_items db = (Ok ids, db')
    ∧ length ids
      = (Z.to_nat max_items
         `min` length (filter (λ r, hint r = hint_) (hints_table db)))%nat
    ∧ ids ⊆+ coin_id <$> filter (λ r, hint r = hint_) (hints_table db).
Proof.
  intros Hlim Hsized Hcap. do 2 eexists.
  split; [by apply get_coin_ids_run; [apply int64_nonnegative|..]|].
  unfold select_rows, apply_limit. rewrite filter_HintEq, limit_count_take by lia.
  split.
  - by rewrite length_fmap, length_take.
  - apply fmap_submseteq, submseteq_take.
Qed.

Lemma get_coin_ids_truncates_witness :
  let db := store 1000 three_items in
  (2 ≤ host_parameter_limit db)%nat
  ∧ coin_ids_sized (hints_table db)
  ∧ 0 ≤ 1 < 2 ^ 63
  ∧ ∃ ids db',
      get_coin_ids (hint32 1) 1 db = (Ok ids, db')
      ∧ length ids
        = (Z.to_nat 1
           `min` length (filter (λ r, hint r = hint32 1) (hints_table db)))%nat
      ∧ ids ⊆+ coin_id <$> filter (λ r, hint r = hint32 1) (hints_table db).
Proof.
  intros db.
  assert (H1 : (2 ≤ host_parameter_limit db)%nat) by (vm_compute; lia).
  assert (H2 : coin_ids_sized (hints_table db)).
  { unfold coin_ids_sized. simpl. repeat constructor. }
  assert (H3 : 0 ≤ 1 < 2 ^ 63) by lia.
  split; [exact H1|]. split; [exact H2|]. split; [exact H3|].
  exact (get_coin_ids_truncates (hint32 1) 1 db H1 H2 H3).
Defined.

(** X8.  [get_coin_ids] converts every coin id it was answered to
    [bytes32] and [get_coin_ids_by_hints] does not.  On a backend that
    binds two parameters or more, on one hint and without a cap
    ([- 2^63 <= max_items < 0]), the two return the same list when every
    coin id stored under the hint has 32 bytes, and otherwise
    [get_coin_ids] raises [ValueError] where [get_coin_ids_by_hints] still
    returns the stored values. *)
Theorem get_coin_ids_converts_to_bytes32 hint_ max_items db :
  (2 ≤ host_parameter_limit db)%nat →
  - 2 ^ 63 ≤ max_items < 0 →
  fst (get_coin_ids_by_hints [hint_] db)
  = Ok (coin_id <$> filter (λ r, hint r = hint_) (hints_table db))
  ∧ (Forall (λ r, hint r = hint_ → length (coin_id r) = 32%nat) (hints_table db) →
     fst (get_coin_ids hint_ max_items db) = fst (get_coin_ids_by_hints [hint_] db))
  ∧ (¬ Forall (λ r, hint r = hint_ → length (coin_id r) = 32%nat) (hints_table db) →
     fst (get_coin_ids hint_ max_items db) = Raise ValueError).
Proof.
  intros Hlim Hcap.
  assert (Hrows : select_rows (HintEq hint_) false (LIMIT_PARAMETER max_items)
                    (hints_table db)
                  = filter (λ r, hint r = hint_) (hints_table db)).
  { unfold select_rows, apply_limit. rewrite limit_count_all by (left; lia).
    apply filter_HintEq. }
  assert (Hsome : fst (get_coin_ids_by_hints [hint_] db)
                  = Ok (coin_id <$> filter (λ r, hint r = hint_) (hints_table db))).
  { rewrite get_coin_ids_by_hints_run by (done || (simpl; lia)). simpl. f_equal.
    unfold matching_ids. f_equal. apply list_filter_iff. intros r. simpl.
    rewrite list_elem_of_singleton. done. }
  assert (Hsized : Forall (λ r, length (coin_id r) = 32%nat)
                     (filter (λ r, hint r = hint_) (hints_table db))
                   ↔ Forall (λ r, hint r = hint_ → length (coin_id r) = 32%nat)
                       (hints_table db)).
  { rewrite !Forall_forall. setoid_rewrite list_elem_of_filter.
    split; intros H r; [intros Hr Hh; apply H; by split | intros [Hh Hr]; by apply H]. }
  split; [exact Hsome|]. unfold get_coin_ids, bind.
  rewrite fetchall_accepted
    by ((apply limit_error_parameter; unfold int64; lia) || (simpl; lia)).
  unfold lift. rewrite Hrows. simpl.
  split.
  - intros Hall. rewrite comprehension_bytes32 by by apply Hsized. by rewrite Hsome.
  - intros Hnot. apply comprehension_bytes32_unsized. by rewrite Hsized.
Qed.

Lemma get_coin_ids_converts_to_bytes32_witness :
  let db := store 1000 [row (id32 1) (hint32 1); row hint10 (hint32 1)] in
  (2 ≤ host_parameter_limit db)%nat
  ∧ - 2 ^ 63 ≤ -1 < 0
  ∧ ¬ Forall (λ r, hint r = hint32 1 → length (coin_id r) = 32%nat) (hints_table db)
  ∧ fst (get_coin_ids_by_hints [hint32 1] db)
    = Ok (coin_id <$> filter (λ r, hint r = hint32 1) (hints_table db))
  ∧ fst (get_coin_ids (hint32 1) (-1) db) = Raise ValueError.
Proof.
  intros db.
  assert (H1 : (2 ≤ host_parameter_limit db)%nat) by (vm_compute; lia).
  assert (H2 : - 2 ^ 63 ≤ -1 < 0) by lia.
  assert (H3 : ¬ Forall (λ r, hint r = hint32 1 → length (coin_id r) = 32%nat)
                 (hints_table db)).
  { intros Hall. apply Forall_cons in Hall as [_ Hall].
    apply Forall_cons in Hall as [Hlen _]. specialize (Hlen eq_refl).
    vm_compute in Hlen. discriminate. }
  split; [exact H1|]. split; [exact H2|]. split; [exact H3|].
  destruct (get_coin_ids_converts_to_bytes32 (hint32 1) (-1) db H1 H2)
    as (Hstored & _ & Hraises).
  split; [exact Hstored | exact (Hraises H3)].
Defined.

(** A 10-byte coin id stored under the hint: one lookup raises, the other
    returns it. *)
Example get_coin_ids_unsized_coin_id :
  let db := store 1000 [row (id32 1) (hint32 1); row hint10 (hint32 1)] in
  fst (get_coin_ids (hint32 1) (-1) db) = Raise ValueError
  ∧ fst (get_coin_ids (hint32 1) 1 db) = Ok [id32 1]
  ∧ fst (get_coin_ids_by_hints [hint32 1] db) = Ok [id32 1; hint10].
Proof. vm_compute. done. Qed.

(** ** The multi-hint lookups against each other *)

(** X9.  Take a non-empty list of distinct hints, a store whose coin ids
    are 32 bytes long, a backend whose parameter limit admits the hints
    and one parameter more than [SQLITE_MAX_VARIABLE_NUMBER], and a cap in
    the 64-bit range that is negative or at least the number of stored
    rows.  Then the unbatched [get_coin_ids_by_hints] and the batched
    [get_coin_ids_multi] return the same coin ids with the same
    multiplicities, possibly in another order. *)
Theorem get_coin_ids_by_hints_agrees_with_multi
    SQLITE_MAX_VARIABLE_NUMBER hints max_items db :
  hints ≠ [] →
  NoDup hints →
  (length hints ≤ host_parameter_limit db)%nat →
  0 < SQLITE_MAX_VARIABLE_NUMBER →
  (Z.to_nat SQLITE_MAX_VARIABLE_NUMBER + 1 ≤ host_parameter_limit db)%nat →
  coin_ids_sized (hints_table db) →
  - 2 ^ 63 ≤ max_items < 2 ^ 63 →
  max_items < 0 ∨ Z.of_nat (length (hints_table db)) ≤ max_items →
  ∃ ids all db1 db2,
    get_coin_ids_by_hints hints db = (Ok ids, db1)
    ∧ get_coin_ids_multi SQLITE_MAX_VARIABLE_NUMBER hints max_items db = (Ok all, db2)
    ∧ ids ≡ₚ all.
Proof.
  intros Hne Hnd Hlim Hpos Hlim' Hsized Hmax Hcap.
  destruct (get_coin_ids_multi_untruncated SQLITE_MAX_VARIABLE_NUMBER hints max_items db)
    as (all & db2 & Hmulti & Hall); [done..|].
  do 4 eexists. split; [by apply get_coin_ids_by_hints_run|].
  split; [exact Hmulti|]. by rewrite Hall.
Qed.

Lemma get_coin_ids_by_hints_agrees_with_multi_witness :
  let limit := 2 in
  let hints := [hint32 1; hint32 2; hint32 3] in
  let db := store 3 three_items in
  hints ≠ []
  ∧ NoDup hints
  ∧ (length hints ≤ host_parameter_limit db)%nat
  ∧ 0 < limit
  ∧ (Z.to_nat limit + 1 ≤ host_parameter_limit db)%nat
  ∧ coin_ids_sized (hints_table db)
  ∧ - 2 ^ 63 ≤ -1 < 2 ^ 63
  ∧ (-1 < 0 ∨ Z.of_nat (length (hints_table db)) ≤ -1)
  ∧ ∃ ids all db1 db2,
      get_coin_ids_by_hints hints db = (Ok ids, db1)
      ∧ get_coin_ids_multi limit hints (-1) db = (Ok all, db2)
      ∧ ids ≡ₚ all.
Proof.
  intros limit hints db.
  assert (H1 : hints ≠ []) by done.
  assert (H2 : NoDup hints) by compute_done.
  assert (H3 : (length hints ≤ host_parameter_limit db)%nat) by (vm_compute; lia).
  assert (H4 : 0 < limit) by (unfold limit; lia).
  assert (H5 : (Z.to_nat limit + 1 ≤ host_parameter_limit db)%nat) by (vm_compute; lia).
  assert (H6 : coin_ids_sized (hints_table db)).
  { unfold coin_ids_sized. simpl. repeat constructor. }
  assert (H7 : - 2 ^ 63 ≤ -1 < 2 ^ 63) by lia.
  assert (H8 : -1 < 0 ∨ Z.of_nat (length (hints_table db)) ≤ -1) by (left; lia).
  split; [exact H1|]. split; [exact H2|]. split; [exact H3|]. split; [exact H4|].
  split; [exact H5|]. split; [exact H6|]. split; [exact H7|]. split; [exact H8|].
  exact (get_coin_ids_by_hints_agrees_with_multi limit hints (-1) db
           H1 H2 H3 H4 H5 H6 H7 H8).
Defined.

(** ** One page *)

(** X10.  The first page against [get_coin_ids_by_hints], for hints
    within the backend's parameter limit and a page size in the 64-bit
    range: its [total_coin_count] is the length of the list that
    [get_coin_ids_by_hints] returns for the same hints, the page is an
    ascending selection from that list, and it is the whole list, sorted,
    when [page_size] is negative or at least that length. *)
Theorem first_page_against_get_coin_ids_by_hints hints page_size db :
  hints ≠ [] →
  (length hints ≤ host_parameter_limit db)%nat →
  - 2 ^ 63 ≤ page_size < 2 ^ 63 →
  ∃ ids page next_last_id total db1 db2,
    get_coin_ids_by_hints hints db = (Ok ids, db1)
    ∧ get_coin_ids_by_hints_paginated hints page_size None db
      = (Ok (ReturnTuple page next_last_id (Some total)), db2)
    ∧ total = Z.of_nat (length ids)
    ∧ page ⊆+ ids
    ∧ StronglySorted bytes_le page
    ∧ (page_size < 0 ∨ Z.of_nat (length ids) ≤ page_size → page ≡ₚ ids).
Proof.
  intros Hne Hlim Hsize. do 6 eexists.
  split; [by apply get_coin_ids_by_hints_run|].
  split; [rewrite get_coin_ids_by_hints_paginated_run by (done || (simpl; lia)); done|].
  rewrite page_ids_ascending. simpl.
  pose proof (ascending_ids_Permutation hints (hints_table db)) as Hperm.
  split; [|split; [|split]].
  - unfold count_rows, matching_ids. by rewrite length_fmap.
  - rewrite <- Hperm. apply sublist_submseteq, limit_count_sublist.
  - eapply StronglySorted_sublist; [apply limit_count_sublist|].
    apply ascending_ids_sorted.
  - intros Hall. rewrite limit_count_all; [done|].
    rewrite Hperm. done.
Qed.

Lemma first_page_against_get_coin_ids_by_hints_witness :
  let hints := [hint32 1; hint32 2] in
  let db := store 10 three_items in
  hints ≠ []
  ∧ (length hints ≤ host_parameter_limit db)%nat
  ∧ - 2 ^ 63 ≤ 2 < 2 ^ 63
  ∧ ∃ ids page next_last_id total db1 db2,
      get_coin_ids_by_hints hints db = (Ok ids, db1)
      ∧ get_coin_ids_by_hints_paginated hints 2 None db
        = (Ok (ReturnTuple page next_last_id (Some total)), db2)
      ∧ total = Z.of_nat (length ids)
      ∧ page ⊆+ ids
      ∧ StronglySorted bytes_le page
      ∧ (2 < 0 ∨ Z.of_nat (length ids) ≤ 2 → page ≡ₚ ids).
Proof.
  intros hints db.
  assert (H1 : hints ≠ []) by done.
  assert (H2 : (length hints ≤ host_parameter_limit db)%nat) by (vm_compute; lia).
  assert (H3 : - 2 ^ 63 ≤ 2 < 2 ^ 63) by lia.
  split; [exact H1|]. split; [exact H2|]. split; [exact H3|].
  exact (first_page_against_get_coin_ids_by_hints hints 2 db H1 H2 H3).
Defined.

Lemma after_elem_of last_id ids y :
  y ∈ after last_id ids ↔ y ∈ ids ∧ ∀ c, last_id = Some c → bytes_lt c y.
Proof.
  destruct last_id as [c|]; simpl.
  - rewrite list_elem_of_filter. split.
    + intros [Hlt Hy]. split; [done|]. by intros ? [= <-].
    + intros [Hy Hlt]. split; [by apply Hlt | done].
  - split; [by intros ? | by intros [? _]].
Qed.

(** X11.  One page of the paginated query, with or without a cursor, for
    hints that fit the backend's parameter limit with the cursor and a
    page size in the 64-bit range: the
    coin ids are ascending, each belongs to a row with a queried hint and
    is strictly greater than the cursor, and with [page_size >= 0] they
    are at most [page_size].  The page takes the smallest ones: a matching
    coin id past the cursor that is not in the page finds the page full
    and every entry at most itself.  The cursor handed back is the last
    entry, and the cursor passed in when the page is empty. *)
Theorem page_holds_the_next_smallest hints page_size last_id db :
  hints ≠ [] →
  (length hints + 1 ≤ host_parameter_limit db)%nat →
  - 2 ^ 63 ≤ page_size < 2 ^ 63 →
  ∃ page next_last_id total db',
    get_coin_ids_by_hints_paginated hints page_size last_id db
    = (Ok (ReturnTuple page next_last_id total), db')
    ∧ StronglySorted bytes_le page
    ∧ (∀ x, x ∈ page →
            x ∈ matching_ids hints (hints_table db)
            ∧ ∀ c, last_id = Some c → bytes_lt c x)
    ∧ (0 ≤ page_size → Z.of_nat (length page) ≤ page_size)
    ∧ (∀ y, y ∈ matching_ids hints (hints_table db) →
            (∀ c, last_id = Some c → bytes_lt c y) →
            y ∈ page
            ∨ (Z.of_nat (length page) = page_size ∧ ∀ x, x ∈ page → bytes_le x y))
    ∧ (page = [] → next_last_id = last_id)
    ∧ (page ≠ [] → next_last_id = last page).
Proof.
  intros Hne Hlim Hsize. do 4 eexists.
  split; [by apply get_coin_ids_by_hints_paginated_run; [| |destruct last_id; lia]|].
  rewrite page_ids_ascending.
  pose proof (ascending_ids_Permutation hints (hints_table db)) as Hperm.
  pose proof (after_sorted last_id _ (ascending_ids_sorted hints (hints_table db)))
    as Hsorted.
  set (rest := after last_id (ascending_ids hints (hints_table db))) in *.
  split; [|split; [|split; [|split; [|split]]]].
  - eapply StronglySorted_sublist; [apply limit_count_sublist | done].
  - intros x Hx.
    apply (λ H, elem_of_sublist _ _ _ H (limit_count_sublist _ _)) in Hx.
    apply after_elem_of in Hx as [Hx Hc]. by rewrite <- Hperm.
  - by apply limit_count_length.
  - intros y Hy Hc.
    assert (Hrest : y ∈ rest).
    { apply after_elem_of. by rewrite Hperm. }
    unfold limit_count. case_decide as Hneg; [by left|].
    rewrite <- (take_drop (Z.to_nat page_size) rest) in Hrest, Hsorted.
    apply elem_of_app in Hrest as [Hin|Hout]; [by left|]. right. split.
    + rewrite length_take.
      assert (drop (Z.to_nat page_size) rest ≠ []) as Hdrop
        by (intros E; rewrite E in Hout; by apply elem_of_nil in Hout).
      assert (Z.to_nat page_size < length rest)%nat; [|lia].
      destruct (decide (Z.to_nat page_size < length rest)%nat); [done|].
      destruct Hdrop. apply drop_ge. lia.
    + intros x Hx. by eapply StronglySorted_app_1_elem_of.
  - intros ->. done.
  - intros Hpage. rewrite decide_True; [done|].
    destruct (limit_count page_size rest); [done | simpl; lia].
Qed.

Lemma page_holds_the_next_smallest_witness :
  let hints := [hint32 1; hint32 2] in
  let last_id := Some (id32 1) in
  let db := store 10 three_items in
  hints ≠ []
  ∧ (length hints + 1 ≤ host_parameter_limit db)%nat
  ∧ - 2 ^ 63 ≤ 1 < 2 ^ 63
  ∧ ∃ page next_last_id total db',
      get_coin_ids_by_hints_paginated hints 1 last_id db
      = (Ok (ReturnTuple page next_last_id total), db')
      ∧ StronglySorted bytes_le page
      ∧ (∀ x, x ∈ page →
              x ∈ matching_ids hints (hints_table db)
              ∧ ∀ c, last_id = Some c → bytes_lt c x)
      ∧ (0 ≤ 1 → Z.of_nat (length page) ≤ 1)
      ∧ (∀ y, y ∈ matching_ids hints (hints_table db) →
              (∀ c, last_id = Some c → bytes_lt c y) →
              y ∈ page
              ∨ (Z.of_nat (length page) = 1 ∧ ∀ x, x ∈ page → bytes_le x y))
      ∧ (page = [] → next_last_id = last_id)
      ∧ (page ≠ [] → next_last_id = last page).
Proof.
  intros hints last_id db.
  assert (H1 : hints ≠ []) by done.
  assert (H2 : (length hints + 1 ≤ host_parameter_limit db)%nat) by (vm_compute; lia).
  assert (H3 : - 2 ^ 63 ≤ 1 < 2 ^ 63) by lia.
  split; [exact H1|]. split; [exact H2|]. split; [exact H3|].
  exact (page_holds_the_next_smallest hints 1 last_id db H1 H2 H3).
Defined.

(** A page after the cursor, and a page past the end. *)
Example page_after_cursor :
  let db := store 10 three_items in
  fst (get_coin_ids_by_hints_paginated [hint32 1; hint32 2] 1 (Some (id32 1)) db)
  = Ok (ReturnTuple [id32 2] (Some (id32 2)) None)
  ∧ fst (get_coin_ids_by_hints_paginated [hint32 1; hint32 2] 1 (Some (id32 3)) db)
    = Ok (ReturnTuple [] (Some (id32 3)) None).
Proof. vm_compute. done. Qed.

(** ** The statements of the batched lookups *)

(** X12.  Every statement of [get_coin_ids_multi] binds its chunk of hints
    and, as one more parameter, [max_items].  Against a backend whose
    parameter limit is exactly [SQLITE_MAX_VARIABLE_NUMBER], a set of at
    least that many hints has its first, full chunk rejected: the call
    raises after that one statement. *)
Theorem get_coin_ids_multi_binds_one_more_parameter
    SQLITE_MAX_VARIABLE_NUMBER hints max_items db :
  0 < SQLITE_MAX_VARIABLE_NUMBER →
  host_parameter_limit db = Z.to_nat SQLITE_MAX_VARIABLE_NUMBER →
  (Z.to_nat SQLITE_MAX_VARIABLE_NUMBER ≤ length hints)%nat →
  get_coin_ids_multi SQLITE_MAX_VARIABLE_NUMBER hints max_items db
  = (Raise OperationalError,
     with_journal db
       [chunk_statement max_items
          {| entries := take (Z.to_nat SQLITE_MAX_VARIABLE_NUMBER) hints |}])
  ∧ bound_parameters
      (chunk_statement max_items
         {| entries := take (Z.to_nat SQLITE_MAX_VARIABLE_NUMBER) hints |})
    = S (host_parameter_limit db).
Proof.
  intros Hpos Hlim Hlen.
  assert (Hparams : bound_parameters
      (chunk_statement max_items
         {| entries := take (Z.to_nat SQLITE_MAX_VARIABLE_NUMBER) hints |})
    = S (host_parameter_limit db)).
  { simpl. rewrite length_take. lia. }
  split; [|exact Hparams].
  unfold get_coin_ids_multi, bind at 1, lift, to_batches.
  rewrite decide_False by lia.
  destruct hints as [|h hints]; [simpl in Hlen; lia|].
  cbn [length chunks for_each]. unfold bind at 1. unfold bind at 1.
  rewrite fetchall_indexed_by_rejected; [done|].
  unfold chunk_statement in Hparams. rewrite Hparams. lia.
Qed.

Lemma get_coin_ids_multi_binds_one_more_parameter_witness :
  let limit := 2 in
  let hints := [hint32 1; hint32 2; hint32 3] in
  let db := store 2 three_items in
  0 < limit
  ∧ host_parameter_limit db = Z.to_nat limit
  ∧ (Z.to_nat limit ≤ length hints)%nat
  ∧ get_coin_ids_multi limit hints 50 db
    = (Raise OperationalError,
       with_journal db
         [chunk_statement 50 {| entries := take (Z.to_nat limit) hints |}])
  ∧ bound_parameters
      (chunk_statement 50 {| entries := take (Z.to_nat limit) hints |})
    = S (host_parameter_limit db).
Proof.
  intros limit hints db.
  assert (H1 : 0 < limit) by (unfold limit; lia).
  assert (H2 : host_parameter_limit db = Z.to_nat limit) by reflexivity.
  assert (H3 : (Z.to_nat limit ≤ length hints)%nat) by (vm_compute; lia).
  split; [exact H1|]. split; [exact H2|]. split; [exact H3|].
  exact (get_coin_ids_multi_binds_one_more_parameter limit hints 50 db H1 H2 H3).
Defined.

(** X13.  The batched lookups keep to the chunk size.  On a backend that
    binds one parameter more than [SQLITE_MAX_VARIABLE_NUMBER], with a
    store whose coin ids are 32 bytes long and a cap in the 64-bit range,
    so that no statement fails: for [n] keys they
    send [ceil(n / SQLITE_MAX_VARIABLE_NUMBER)] statements, none with an
    empty list of keys; a statement of [get_hints] binds at most
    [SQLITE_MAX_VARIABLE_NUMBER] parameters and one of [get_coin_ids_multi]
    at most one more.  With no key they send nothing and return the empty
    list. *)
Theorem batched_lookups_keep_to_the_chunk_size
    SQLITE_MAX_VARIABLE_NUMBER keys max_items db :
  0 < SQLITE_MAX_VARIABLE_NUMBER →
  (Z.to_nat SQLITE_MAX_VARIABLE_NUMBER + 1 ≤ host_parameter_limit db)%nat →
  coin_ids_sized (hints_table db) →
  - 2 ^ 63 ≤ max_items < 2 ^ 63 →
  ∃ sent_hints sent_multi,
    journal (snd (get_hints SQLITE_MAX_VARIABLE_NUMBER keys db))
    = journal db ++ sent_hints
    ∧ journal (snd (get_coin_ids_multi SQLITE_MAX_VARIABLE_NUMBER keys max_items db))
      = journal db ++ sent_multi
    ∧ length sent_hints
      = ((length keys + Z.to_nat SQLITE_MAX_VARIABLE_NUMBER - 1)
         / Z.to_nat SQLITE_MAX_VARIABLE_NUMBER)%nat
    ∧ length sent_multi = length sent_hints
    ∧ Forall (λ st, 0 < bound_parameters st
                    ≤ Z.to_nat SQLITE_MAX_VARIABLE_NUMBER)%nat sent_hints
    ∧ Forall (λ st, 1 < bound_parameters st
                    ≤ Z.to_nat SQLITE_MAX_VARIABLE_NUMBER + 1)%nat sent_multi
    ∧ (keys = [] →
       get_hints SQLITE_MAX_VARIABLE_NUMBER keys db = (Ok [], db)
       ∧ get_coin_ids_multi SQLITE_MAX_VARIABLE_NUMBER keys max_items db = (Ok [], db)).
Proof.
  intros Hpos Hlim Hsized Hmax.
  destruct (to_batches_ok keys _ Hpos) as (batches & Hb & Hcat & Hsizes & Hcount).
  destruct (get_hints_run SQLITE_MAX_VARIABLE_NUMBER keys db)
    as (batches' & Hb' & Hrun); [done | lia |].
  rewrite Hb in Hb'. injection Hb' as <-.
  destruct (get_coin_ids_multi_run SQLITE_MAX_VARIABLE_NUMBER keys max_items db)
    as (batches' & Hb' & Hrun'); [done..|].
  rewrite Hb in Hb'. injection Hb' as <-.
  exists (hints_statement <$> batches), (chunk_statement max_items <$> batches).
  rewrite Hrun, Hrun'. simpl. rewrite !length_fmap.
  split; [done|]. split; [done|]. split; [done|]. split; [done|].
  split; [|split].
  - apply Forall_fmap. eapply Forall_impl; [exact Hsizes|]. simpl. lia.
  - apply Forall_fmap. eapply Forall_impl; [exact Hsizes|]. simpl. lia.
  - intros ->. simpl in Hcount.
    rewrite Nat.div_small in Hcount by lia.
    destruct batches; [|done]. simpl. by rewrite with_journal_nil.
Qed.

Lemma batched_lookups_keep_to_the_chunk_size_witness :
  let limit := 2 in
  let keys := [hint32 1; hint32 2; hint32 3] in
  let db := store 3 three_items in
  0 < limit
  ∧ (Z.to_nat limit + 1 ≤ host_parameter_limit db)%nat
  ∧ coin_ids_sized (hints_table db)
  ∧ - 2 ^ 63 ≤ 50 < 2 ^ 63
  ∧ ∃ sent_hints sent_multi,
      journal (snd (get_hints limit keys db)) = journal db ++ sent_hints
      ∧ journal (snd (get_coin_ids_multi limit keys 50 db))
        = journal db ++ sent_multi
      ∧ length sent_hints
        = ((length keys + Z.to_nat limit - 1) / Z.to_nat limit)%nat
      ∧ length sent_multi = length sent_hints
      ∧ Forall (λ st, 0 < bound_parameters st ≤ Z.to_nat limit)%nat sent_hints
      ∧ Forall (λ st, 1 < bound_parameters st ≤ Z.to_nat limit + 1)%nat sent_multi
      ∧ (keys = [] →
         get_hints limit keys db = (Ok [], db)
         ∧ get_coin_ids_multi limit keys 50 db = (Ok [], db)).
Proof.
  intros limit keys db.
  assert (H1 : 0 < limit) by (unfold limit; lia).
  assert (H2 : (Z.to_nat limit + 1 ≤ host_parameter_limit db)%nat) by (vm_compute; lia).
  assert (H3 : coin_ids_sized (hints_table db)).
  { unfold coin_ids_sized. simpl. repeat constructor. }
  assert (H4 : - 2 ^ 63 ≤ 50 < 2 ^ 63) by lia.
  split; [exact H1|]. split; [exact H2|]. split; [exact H3|]. split; [exact H4|].
  exact (batched_lookups_keep_to_the_chunk_size limit keys 50 db H1 H2 H3 H4).
Defined.

(** ** The unbatched lookups at the parameter limit *)




